(** * pkg/kubernetes/informers.go: the informer manager

    A shallow embedding of the informer manager of the vSphere CSI driver
    (package [kubernetes], file [informers.go]) and the properties of it
    that the specification states.

    The Go code mutates package-level variables and the fields of the
    [*InformerManager] it receives, and talks to client-go (shared informer
    factory, shared informers, [cache.WaitForCacheSync]).  The embedding is a
    state monad over a [World]: the heap of managers, the package-level
    variables and their mutexes, the informers the shared factories have
    instantiated, and the history of the calls into client-go and of the
    goroutines launched.  What client-go answers (whether a handler is
    accepted, how a wait ends) is a parameter of the development. *)

From stdpp Require Import base option list gmap strings.
From Stdlib Require Import ZArith Lia.

(* ===================================================================== *)
(** ** Data model *)
(* ===================================================================== *)

(** [clientset.Interface]: an opaque handle. *)
Definition Client := nat.

(** A channel value [<-chan struct{}]: the nil channel or an allocated one. *)
Inductive Chan :=
| NilChan
| ChanAt (addr : nat).

(** [time.Duration] is a count of nanoseconds. *)
Definition Duration := Z.
Definition Nanosecond : Duration := 1%Z.
Definition Microsecond : Duration := (1000 * Nanosecond)%Z.
Definition Millisecond : Duration := (1000 * Microsecond)%Z.
Definition Second : Duration := (1000 * Millisecond)%Z.
Definition Minute : Duration := (60 * Second)%Z.

Definition resyncPeriodConfigMapInformer : Duration := (30 * Minute)%Z.

Definition noResyncPeriodFunc : Duration := 0%Z.

(** The typed accessors of a shared informer factory that the file uses:
    [Core().V1().Nodes()], [Storage().V1().CSINodes()], and so on. *)
Inductive Kind :=
| Nodes
| CSINodes
| PersistentVolumeClaims
| PersistentVolumes
| Namespaces
| ConfigMaps
| Pods
| VolumeAttachments.

(** [informers.NewSharedInformerFactory(client, defaultResync)]. *)
Record SharedInformerFactory := {
  factoryAddr : nat;
  factoryClient : Client;
  defaultResync : Duration
}.

(** A [cache.SharedInformer] (SharedIndexInformer) is either the informer a
    shared factory keeps for one kind (the factory hands out the same
    one on every request), or one built on its own by
    [v1.NewFilteredConfigMapInformer(client, namespace, resyncPeriod,
    indexers, tweakListOptions)]. *)
Inductive SharedInformer :=
| FactoryInformer (f : SharedInformerFactory) (k : Kind)
| FilteredConfigMapInformer (addr : nat) (client : Client) (namespace : string)
    (resyncPeriod : Duration) (indexers : list string) (tweakListOptions : option nat).

(** [cache.InformerSynced]: the method value [informer.HasSynced]. *)
Inductive InformerSynced :=
| HasSynced (i : SharedInformer).

(** A lister reads the indexer (local cache) of one informer. *)
Inductive Lister :=
| ListerOn (i : SharedInformer).

(** Callbacks are function values; only their identity matters here. *)
Definition Callback := nat.

Record ResourceEventHandlerFuncs := {
  AddFunc : Callback;
  UpdateFunc : Callback;
  DeleteFunc : Callback
}.

(** Modelled from the spec: the declaration of the struct [InformerManager]
    is in another file of the package.  The specification (Data model) gives
    a manager a client handle, a cancellation signal and its watchers, each
    with zero or one synced predicate; the fields below are the ones that
    [informers.go] reads and writes, under their names there, with the
    types of the values it assigns to them.  [None] is Go's nil. *)
Record InformerManager := {
  client : Client;
  stopCh : Chan;
  informerFactory : SharedInformerFactory;
  nodeInformer : option SharedInformer;
  pvcInformer : option SharedInformer;
  pvInformer : option SharedInformer;
  namespaceInformer : option SharedInformer;
  configMapInformer : option SharedInformer;
  podInformer : option SharedInformer;
  volumeAttachmentInformer : option SharedInformer;
  pvSynced : option InformerSynced;
  pvcSynced : option InformerSynced;
  podSynced : option InformerSynced;
  configMapSynced : option InformerSynced;
  namespaceSynced : option InformerSynced
}.

#[global] Instance Chan_eq_dec : EqDecision Chan.
Proof. solve_decision. Defined.
#[global] Instance Kind_eq_dec : EqDecision Kind.
Proof. solve_decision. Defined.
#[global] Instance SharedInformerFactory_eq_dec : EqDecision SharedInformerFactory.
Proof. solve_decision. Defined.
#[global] Instance SharedInformer_eq_dec : EqDecision SharedInformer.
Proof. solve_decision. Defined.
#[global] Instance InformerSynced_eq_dec : EqDecision InformerSynced.
Proof. solve_decision. Defined.

(** Field assignments [im.f = v]. *)
Definition set_nodeInformer (v : option SharedInformer) (m : InformerManager) :=
  {| client := client m; stopCh := stopCh m; informerFactory := informerFactory m;
     nodeInformer := v; pvcInformer := pvcInformer m; pvInformer := pvInformer m;
     namespaceInformer := namespaceInformer m; configMapInformer := configMapInformer m;
     podInformer := podInformer m; volumeAttachmentInformer := volumeAttachmentInformer m;
     pvSynced := pvSynced m; pvcSynced := pvcSynced m; podSynced := podSynced m;
     configMapSynced := configMapSynced m; namespaceSynced := namespaceSynced m |}.

Definition set_pvcInformer (v : option SharedInformer) (m : InformerManager) :=
  {| client := client m; stopCh := stopCh m; informerFactory := informerFactory m;
     nodeInformer := nodeInformer m; pvcInformer := v; pvInformer := pvInformer m;
     namespaceInformer := namespaceInformer m; configMapInformer := configMapInformer m;
     podInformer := podInformer m; volumeAttachmentInformer := volumeAttachmentInformer m;
     pvSynced := pvSynced m; pvcSynced := pvcSynced m; podSynced := podSynced m;
     configMapSynced := configMapSynced m; namespaceSynced := namespaceSynced m |}.

Definition set_pvInformer (v : option SharedInformer) (m : InformerManager) :=
  {| client := client m; stopCh := stopCh m; informerFactory := informerFactory m;
     nodeInformer := nodeInformer m; pvcInformer := pvcInformer m; pvInformer := v;
     namespaceInformer := namespaceInformer m; configMapInformer := configMapInformer m;
     podInformer := podInformer m; volumeAttachmentInformer := volumeAttachmentInformer m;
     pvSynced := pvSynced m; pvcSynced := pvcSynced m; podSynced := podSynced m;
     configMapSynced := configMapSynced m; namespaceSynced := namespaceSynced m |}.

Definition set_namespaceInformer (v : option SharedInformer) (m : InformerManager) :=
  {| client := client m; stopCh := stopCh m; informerFactory := informerFactory m;
     nodeInformer := nodeInformer m; pvcInformer := pvcInformer m; pvInformer := pvInformer m;
     namespaceInformer := v; configMapInformer := configMapInformer m;
     podInformer := podInformer m; volumeAttachmentInformer := volumeAttachmentInformer m;
     pvSynced := pvSynced m; pvcSynced := pvcSynced m; podSynced := podSynced m;
     configMapSynced := configMapSynced m; namespaceSynced := namespaceSynced m |}.

Definition set_configMapInformer (v : option SharedInformer) (m : InformerManager) :=
  {| client := client m; stopCh := stopCh m; informerFactory := informerFactory m;
     nodeInformer := nodeInformer m; pvcInformer := pvcInformer m; pvInformer := pvInformer m;
     namespaceInformer := namespaceInformer m; configMapInformer := v;
     podInformer := podInformer m; volumeAttachmentInformer := volumeAttachmentInformer m;
     pvSynced := pvSynced m; pvcSynced := pvcSynced m; podSynced := podSynced m;
     configMapSynced := configMapSynced m; namespaceSynced := namespaceSynced m |}.

Definition set_podInformer (v : option SharedInformer) (m : InformerManager) :=
  {| client := client m; stopCh := stopCh m; informerFactory := informerFactory m;
     nodeInformer := nodeInformer m; pvcInformer := pvcInformer m; pvInformer := pvInformer m;
     namespaceInformer := namespaceInformer m; configMapInformer := configMapInformer m;
     podInformer := v; volumeAttachmentInformer := volumeAttachmentInformer m;
     pvSynced := pvSynced m; pvcSynced := pvcSynced m; podSynced := podSynced m;
     configMapSynced := configMapSynced m; namespaceSynced := namespaceSynced m |}.

Definition set_volumeAttachmentInformer (v : option SharedInformer) (m : InformerManager) :=
  {| client := client m; stopCh := stopCh m; informerFactory := informerFactory m;
     nodeInformer := nodeInformer m; pvcInformer := pvcInformer m; pvInformer := pvInformer m;
     namespaceInformer := namespaceInformer m; configMapInformer := configMapInformer m;
     podInformer := podInformer m; volumeAttachmentInformer := v;
     pvSynced := pvSynced m; pvcSynced := pvcSynced m; podSynced := podSynced m;
     configMapSynced := configMapSynced m; namespaceSynced := namespaceSynced m |}.

Definition set_pvSynced (v : option InformerSynced) (m : InformerManager) :=
  {| client := client m; stopCh := stopCh m; informerFactory := informerFactory m;
     nodeInformer := nodeInformer m; pvcInformer := pvcInformer m; pvInformer := pvInformer m;
     namespaceInformer := namespaceInformer m; configMapInformer := configMapInformer m;
     podInformer := podInformer m; volumeAttachmentInformer := volumeAttachmentInformer m;
     pvSynced := v; pvcSynced := pvcSynced m; podSynced := podSynced m;
     configMapSynced := configMapSynced m; namespaceSynced := namespaceSynced m |}.

Definition set_pvcSynced (v : option InformerSynced) (m : InformerManager) :=
  {| client := client m; stopCh := stopCh m; informerFactory := informerFactory m;
     nodeInformer := nodeInformer m; pvcInformer := pvcInformer m; pvInformer := pvInformer m;
     namespaceInformer := namespaceInformer m; configMapInformer := configMapInformer m;
     podInformer := podInformer m; volumeAttachmentInformer := volumeAttachmentInformer m;
     pvSynced := pvSynced m; pvcSynced := v; podSynced := podSynced m;
     configMapSynced := configMapSynced m; namespaceSynced := namespaceSynced m |}.

Definition set_podSynced (v : option InformerSynced) (m : InformerManager) :=
  {| client := client m; stopCh := stopCh m; informerFactory := informerFactory m;
     nodeInformer := nodeInformer m; pvcInformer := pvcInformer m; pvInformer := pvInformer m;
     namespaceInformer := namespaceInformer m; configMapInformer := configMapInformer m;
     podInformer := podInformer m; volumeAttachmentInformer := volumeAttachmentInformer m;
     pvSynced := pvSynced m; pvcSynced := pvcSynced m; podSynced := v;
     configMapSynced := configMapSynced m; namespaceSynced := namespaceSynced m |}.

Definition set_configMapSynced (v : option InformerSynced) (m : InformerManager) :=
  {| client := client m; stopCh := stopCh m; informerFactory := informerFactory m;
     nodeInformer := nodeInformer m; pvcInformer := pvcInformer m; pvInformer := pvInformer m;
     namespaceInformer := namespaceInformer m; configMapInformer := configMapInformer m;
     podInformer := podInformer m; volumeAttachmentInformer := volumeAttachmentInformer m;
     pvSynced := pvSynced m; pvcSynced := pvcSynced m; podSynced := podSynced m;
     configMapSynced := v; namespaceSynced := namespaceSynced m |}.

Definition set_namespaceSynced (v : option InformerSynced) (m : InformerManager) :=
  {| client := client m; stopCh := stopCh m; informerFactory := informerFactory m;
     nodeInformer := nodeInformer m; pvcInformer := pvcInformer m; pvInformer := pvInformer m;
     namespaceInformer := namespaceInformer m; configMapInformer := configMapInformer m;
     podInformer := podInformer m; volumeAttachmentInformer := volumeAttachmentInformer m;
     pvSynced := pvSynced m; pvcSynced := pvcSynced m; podSynced := podSynced m;
     configMapSynced := configMapSynced m; namespaceSynced := v |}.

(* ===================================================================== *)
(** ** The world the code runs in *)
(* ===================================================================== *)

(** What a call leaves behind outside the heap: log lines, calls into
    client-go, goroutines launched with [go]. *)
Inductive Event :=
| LogInfo (msg : string)
| CalledAddEventHandler (i : SharedInformer) (h : ResourceEventHandlerFuncs)
    (err : option string)
| CalledWaitForCacheSync (stop : Chan) (syncs : list InformerSynced)
| GoFactoryStart (f : SharedInformerFactory) (stop : Chan)
| GoInformerRun (i : SharedInformer) (stop : Chan).

(** The two package-level mutexes. *)
Inductive Mutex :=
| inClusterInformerInstanceLock
| supervisorInformerInstanceLock.

Record World := {
  (** the objects behind the [*InformerManager] pointers *)
  heap : gmap nat InformerManager;
  (** the next address the allocator hands out *)
  nextAddr : nat;
  (** [var inClusterInformerManagerInstance *InformerManager = nil] *)
  inClusterInformerManagerInstance : option nat;
  (** [var supervisorInformerManagerInstance *InformerManager = nil] *)
  supervisorInformerManagerInstance : option nat;
  (** the mutexes that are held *)
  inClusterLocked : bool;
  supervisorLocked : bool;
  (** the informers the shared factories have instantiated so far *)
  factoryInformers : list SharedInformer;
  (** history, oldest first *)
  trace : list Event
}.

Definition init_world : World :=
  {| heap := ∅; nextAddr := 0;
     inClusterInformerManagerInstance := None;
     supervisorInformerManagerInstance := None;
     inClusterLocked := false; supervisorLocked := false;
     factoryInformers := []; trace := [] |}.

Definition set_heap (h : gmap nat InformerManager) (w : World) : World :=
  {| heap := h; nextAddr := nextAddr w;
     inClusterInformerManagerInstance := inClusterInformerManagerInstance w;
     supervisorInformerManagerInstance := supervisorInformerManagerInstance w;
     inClusterLocked := inClusterLocked w; supervisorLocked := supervisorLocked w;
     factoryInformers := factoryInformers w; trace := trace w |}.

Definition set_nextAddr (n : nat) (w : World) : World :=
  {| heap := heap w; nextAddr := n;
     inClusterInformerManagerInstance := inClusterInformerManagerInstance w;
     supervisorInformerManagerInstance := supervisorInformerManagerInstance w;
     inClusterLocked := inClusterLocked w; supervisorLocked := supervisorLocked w;
     factoryInformers := factoryInformers w; trace := trace w |}.

Definition set_inClusterInformerManagerInstance (p : option nat) (w : World) : World :=
  {| heap := heap w; nextAddr := nextAddr w;
     inClusterInformerManagerInstance := p;
     supervisorInformerManagerInstance := supervisorInformerManagerInstance w;
     inClusterLocked := inClusterLocked w; supervisorLocked := supervisorLocked w;
     factoryInformers := factoryInformers w; trace := trace w |}.

Definition set_supervisorInformerManagerInstance (p : option nat) (w : World) : World :=
  {| heap := heap w; nextAddr := nextAddr w;
     inClusterInformerManagerInstance := inClusterInformerManagerInstance w;
     supervisorInformerManagerInstance := p;
     inClusterLocked := inClusterLocked w; supervisorLocked := supervisorLocked w;
     factoryInformers := factoryInformers w; trace := trace w |}.

Definition set_locked (mu : Mutex) (b : bool) (w : World) : World :=
  {| heap := heap w; nextAddr := nextAddr w;
     inClusterInformerManagerInstance := inClusterInformerManagerInstance w;
     supervisorInformerManagerInstance := supervisorInformerManagerInstance w;
     inClusterLocked :=
       match mu with inClusterInformerInstanceLock => b | _ => inClusterLocked w end;
     supervisorLocked :=
       match mu with supervisorInformerInstanceLock => b | _ => supervisorLocked w end;
     factoryInformers := factoryInformers w; trace := trace w |}.

Definition set_factoryInformers (l : list SharedInformer) (w : World) : World :=
  {| heap := heap w; nextAddr := nextAddr w;
     inClusterInformerManagerInstance := inClusterInformerManagerInstance w;
     supervisorInformerManagerInstance := supervisorInformerManagerInstance w;
     inClusterLocked := inClusterLocked w; supervisorLocked := supervisorLocked w;
     factoryInformers := l; trace := trace w |}.

Definition set_trace (t : list Event) (w : World) : World :=
  {| heap := heap w; nextAddr := nextAddr w;
     inClusterInformerManagerInstance := inClusterInformerManagerInstance w;
     supervisorInformerManagerInstance := supervisorInformerManagerInstance w;
     inClusterLocked := inClusterLocked w; supervisorLocked := supervisorLocked w;
     factoryInformers := factoryInformers w; trace := t |}.

Definition locked (mu : Mutex) (w : World) : bool :=
  match mu with
  | inClusterInformerInstanceLock => inClusterLocked w
  | supervisorInformerInstanceLock => supervisorLocked w
  end.

(** How a call ends: it returns, it panics (nil dereference), or it never
    returns (a mutex that is never released, a wait that never ends). *)
Inductive Outcome (A : Type) :=
| Done (a : A) (w : World)
| Panics
| Blocks.
Arguments Done {A} a w.
Arguments Panics {A}.
Arguments Blocks {A}.

Definition M (A : Type) := World -> Outcome A.

#[global] Instance M_ret : MRet M := fun A a w => Done a w.

#[global] Instance M_bind : MBind M := fun A B f m w =>
  match m w with
  | Done a w' => f a w'
  | Panics => Panics
  | Blocks => Blocks
  end.

(** *** Primitive actions *)

Definition panic {A} : M A := fun _ => Panics.

(** Dereference of a [*InformerManager]. *)
Definition load (im : nat) : M InformerManager :=
  fun w => match heap w !! im with
           | Some m => Done m w
           | None => Panics
           end.

(** [im.f = v], with [upd] the assignment to the field. *)
Definition store (im : nat) (upd : InformerManager -> InformerManager) : M unit :=
  fun w => match heap w !! im with
           | Some m => Done tt (set_heap (<[im := upd m]> (heap w)) w)
           | None => Panics
           end.

(** A fresh address: [&T{...}], [make(chan struct{})], a constructor of
    client-go. *)
Definition alloc : M nat :=
  fun w => Done (nextAddr w) (set_nextAddr (S (nextAddr w)) w).

(** [&InformerManager{...}] *)
Definition new (m : InformerManager) : M nat :=
  p ← alloc;
  ((fun w => Done p (set_heap (<[p := m]> (heap w)) w)) : M nat).

(** [make(chan struct{})] *)
Definition make_chan : M Chan :=
  a ← alloc; mret (ChanAt a).

Definition emit (e : Event) : M unit :=
  fun w => Done tt (set_trace (trace w ++ [e]) w).

(** [mu.Lock()] waits for the mutex; nothing here releases it meanwhile. *)
Definition Lock (mu : Mutex) : M unit :=
  fun w => if locked mu w then Blocks else Done tt (set_locked mu true w).

(** [mu.Unlock()] of a mutex that is not held is a fatal error. *)
Definition Unlock (mu : Mutex) : M unit :=
  fun w => if locked mu w then Done tt (set_locked mu false w) else Panics.

(** A method call on a nil interface value panics. *)
Definition nonnil {A} (o : option A) : M A :=
  match o with
  | Some a => mret a
  | None => panic
  end.

(** [signals.SetupSignalHandler()] of k8s.io/sample-controller, taken by
    its signature: it returns a channel of its own, which it closes on
    SIGTERM or SIGINT.  Nothing here ever closes a channel. *)
Definition SetupSignalHandler : M Chan := make_chan.

(** [informers.NewSharedInformerFactory(client, defaultResync)] *)
Definition NewSharedInformerFactory (c : Client) (resync : Duration)
  : M SharedInformerFactory :=
  a ← alloc;
  mret {| factoryAddr := a; factoryClient := c; defaultResync := resync |}.

(** [factory.<Group>().V1().<Kind>().Informer()]: the factory's informer
    for the kind, instantiated on the first request. *)
Definition Informer (f : SharedInformerFactory) (k : Kind) : M SharedInformer :=
  fun w =>
    let i := FactoryInformer f k in
    if decide (i ∈ factoryInformers w) then Done i w
    else Done i (set_factoryInformers (factoryInformers w ++ [i]) w).

(** [factory.<Group>().V1().<Kind>().Lister()] reads the indexer of that
    same informer. *)
Definition FactoryLister (f : SharedInformerFactory) (k : Kind) : M Lister :=
  i ← Informer f k; mret (ListerOn i).

(** [v1.NewFilteredConfigMapInformer(client, namespace, resyncPeriod,
    indexers, tweakListOptions)] builds a new informer on every call. *)
Definition NewFilteredConfigMapInformer (c : Client) (namespace : string)
    (resyncPeriod : Duration) (indexers : list string) (tweak : option nat)
  : M SharedInformer :=
  a ← alloc;
  mret (FilteredConfigMapInformer a c namespace resyncPeriod indexers tweak).

(** How [cache.WaitForCacheSync] ends. *)
Inductive WaitOutcome :=
| AllSynced      (* every predicate reported true: returns true *)
| Cancelled      (* the stop channel was closed first: returns false *)
| NeverReturns.  (* neither ever happens *)

(** What client-go answers.  [handlerError i h t] is the error that
    [i.AddEventHandler(h)] returns after the history [t] ([None] is a nil
    error); [waitOutcome stop syncs t] is how
    [cache.WaitForCacheSync(stop, syncs...)] ends. *)
Record ClientGo := {
  handlerError : SharedInformer -> ResourceEventHandlerFuncs -> list Event -> option string;
  waitOutcome : Chan -> list InformerSynced -> list Event -> WaitOutcome
}.

(* ===================================================================== *)
(** ** The code of informers.go *)
(* ===================================================================== *)

Section Informers.

Variable cg : ClientGo.

(** [informer.AddEventHandler(handler)]; the registration handle is
    dropped by every caller, the error is returned. *)
Definition AddEventHandler (i : SharedInformer) (h : ResourceEventHandlerFuncs)
  : M (option string) :=
  fun w =>
    let err := handlerError cg i h (trace w) in
    Done err (set_trace (trace w ++ [CalledAddEventHandler i h err]) w).

(** [cache.WaitForCacheSync(stopCh, cacheSyncs...)] *)
Definition WaitForCacheSync (stop : Chan) (syncs : list InformerSynced) : M bool :=
  fun w =>
    let w' := set_trace (trace w ++ [CalledWaitForCacheSync stop syncs]) w in
    match waitOutcome cg stop syncs (trace w) with
    | AllSynced => Done true w'
    | Cancelled => Done false w'
    | NeverReturns => Blocks
    end.

Definition read_inClusterInformerManagerInstance : M (option nat) :=
  fun w => Done (inClusterInformerManagerInstance w) w.

Definition read_supervisorInformerManagerInstance : M (option nat) :=
  fun w => Done (supervisorInformerManagerInstance w) w.

Definition write_inClusterInformerManagerInstance (p : nat) : M unit :=
  fun w => Done tt (set_inClusterInformerManagerInstance (Some p) w).

Definition write_supervisorInformerManagerInstance (p : nat) : M unit :=
  fun w => Done tt (set_supervisorInformerManagerInstance (Some p) w).

(** [func NewInformer(ctx, client, inClusterClnt) *InformerManager].
    The deferred [Unlock] runs when the function returns.  [ctx] only
    selects the logger. *)
Definition NewInformer (client : Client) (inClusterClnt : bool) : M nat :=
  informerInstance ←
    (if inClusterClnt then
       Lock inClusterInformerInstanceLock;;
       read_inClusterInformerManagerInstance
     else
       Lock supervisorInformerInstanceLock;;
       read_supervisorInformerManagerInstance);
  informerInstance ←
    match informerInstance with
    | None =>
        stop ← SetupSignalHandler;
        factory ← NewSharedInformerFactory client noResyncPeriodFunc;
        p ← new {| client := client; stopCh := stop; informerFactory := factory;
                   nodeInformer := None; pvcInformer := None; pvInformer := None;
                   namespaceInformer := None; configMapInformer := None;
                   podInformer := None; volumeAttachmentInformer := None;
                   pvSynced := None; pvcSynced := None; podSynced := None;
                   configMapSynced := None; namespaceSynced := None |};
        (if inClusterClnt then
           write_inClusterInformerManagerInstance p;;
           emit (LogInfo "Created new informer factory for in-cluster client")
         else
           write_supervisorInformerManagerInstance p;;
           emit (LogInfo "Created new informer factory for supervisor client"));;
        mret p
    | Some p => mret p
    end;
  Unlock (if inClusterClnt then inClusterInformerInstanceLock
          else supervisorInformerInstanceLock);;
  mret informerInstance.

Definition handlerFuncs (add update remove : Callback) : ResourceEventHandlerFuncs :=
  {| AddFunc := add; UpdateFunc := update; DeleteFunc := remove |}.

(** [func (im *InformerManager) AddNodeListener(add, update, remove)] *)
Definition AddNodeListener (im : nat) (add update remove : Callback) : M unit :=
  m ← load im;
  (if nodeInformer m is None then
     i ← Informer (informerFactory m) Nodes;
     store im (set_nodeInformer (Some i))
   else mret tt);;
  m ← load im;
  i ← nonnil (nodeInformer m);
  err ← AddEventHandler i (handlerFuncs add update remove);
  if err is Some _ then mret tt else mret tt.

(** [func (im *InformerManager) AddCSINodeListener(add, update, remove)] *)
Definition AddCSINodeListener (im : nat) (add update remove : Callback) : M unit :=
  m ← load im;
  (if nodeInformer m is None then
     i ← Informer (informerFactory m) CSINodes;
     store im (set_nodeInformer (Some i))
   else mret tt);;
  m ← load im;
  i ← nonnil (nodeInformer m);
  err ← AddEventHandler i (handlerFuncs add update remove);
  if err is Some _ then mret tt else mret tt.

(** [func (im *InformerManager) AddPVCListener(add, update, remove)] *)
Definition AddPVCListener (im : nat) (add update remove : Callback) : M unit :=
  m ← load im;
  (if pvcInformer m is None then
     i ← Informer (informerFactory m) PersistentVolumeClaims;
     store im (set_pvcInformer (Some i))
   else mret tt);;
  m ← load im;
  i ← nonnil (pvcInformer m);
  store im (set_pvcSynced (Some (HasSynced i)));;
  m ← load im;
  i ← nonnil (pvcInformer m);
  err ← AddEventHandler i (handlerFuncs add update remove);
  if err is Some _ then mret tt else mret tt.

(** [func (im *InformerManager) AddPVListener(add, update, remove)] *)
Definition AddPVListener (im : nat) (add update remove : Callback) : M unit :=
  m ← load im;
  (if pvInformer m is None then
     i ← Informer (informerFactory m) PersistentVolumes;
     store im (set_pvInformer (Some i))
   else mret tt);;
  m ← load im;
  i ← nonnil (pvInformer m);
  store im (set_pvSynced (Some (HasSynced i)));;
  m ← load im;
  i ← nonnil (pvInformer m);
  err ← AddEventHandler i (handlerFuncs add update remove);
  if err is Some _ then mret tt else mret tt.

(** [func (im *InformerManager) AddNamespaceListener(add, update, remove)] *)
Definition AddNamespaceListener (im : nat) (add update remove : Callback) : M unit :=
  m ← load im;
  (if namespaceInformer m is None then
     i ← Informer (informerFactory m) Namespaces;
     store im (set_namespaceInformer (Some i))
   else mret tt);;
  m ← load im;
  i ← nonnil (namespaceInformer m);
  store im (set_namespaceSynced (Some (HasSynced i)));;
  m ← load im;
  i ← nonnil (namespaceInformer m);
  err ← AddEventHandler i (handlerFuncs add update remove);
  if err is Some _ then mret tt else mret tt.

(** [func (im *InformerManager) AddConfigMapListener(ctx, client, namespace,
    add, update, remove)] *)
Definition AddConfigMapListener (im : nat) (client : Client) (namespace : string)
    (add update remove : Callback) : M unit :=
  m ← load im;
  (if configMapInformer m is None then
     i ← NewFilteredConfigMapInformer client namespace
           resyncPeriodConfigMapInformer [] None;
     store im (set_configMapInformer (Some i))
   else mret tt);;
  m ← load im;
  i ← nonnil (configMapInformer m);
  store im (set_configMapSynced (Some (HasSynced i)));;
  m ← load im;
  i ← nonnil (configMapInformer m);
  err ← AddEventHandler i (handlerFuncs add update remove);
  if err is Some _ then mret tt
  else
    stopCh ← make_chan;
    m ← load im;
    i ← nonnil (configMapInformer m);
    emit (GoInformerRun i stopCh).

(** [func (im *InformerManager) AddPodListener(add, update, remove)] *)
Definition AddPodListener (im : nat) (add update remove : Callback) : M unit :=
  m ← load im;
  (if podInformer m is None then
     i ← Informer (informerFactory m) Pods;
     store im (set_podInformer (Some i))
   else mret tt);;
  m ← load im;
  i ← nonnil (podInformer m);
  store im (set_podSynced (Some (HasSynced i)));;
  m ← load im;
  i ← nonnil (podInformer m);
  err ← AddEventHandler i (handlerFuncs add update remove);
  if err is Some _ then mret tt else mret tt.

(** [func (im *InformerManager) AddVolumeAttachmentListener(add, update,
    remove)] *)
Definition AddVolumeAttachmentListener (im : nat) (add update remove : Callback)
  : M unit :=
  m ← load im;
  (if volumeAttachmentInformer m is None then
     i ← Informer (informerFactory m) VolumeAttachments;
     store im (set_volumeAttachmentInformer (Some i))
   else mret tt);;
  m ← load im;
  i ← nonnil (volumeAttachmentInformer m);
  err ← AddEventHandler i (handlerFuncs add update remove);
  if err is Some _ then mret tt else mret tt.

(** [func (im *InformerManager) GetPVLister() corelisters.PersistentVolumeLister] *)
Definition GetPVLister (im : nat) : M Lister :=
  m ← load im; FactoryLister (informerFactory m) PersistentVolumes.

(** [func (im *InformerManager) GetPVCLister()] *)
Definition GetPVCLister (im : nat) : M Lister :=
  m ← load im; FactoryLister (informerFactory m) PersistentVolumeClaims.

(** [func (im *InformerManager) GetConfigMapLister()] *)
Definition GetConfigMapLister (im : nat) : M Lister :=
  m ← load im; FactoryLister (informerFactory m) ConfigMaps.

(** [func (im *InformerManager) GetPodLister()] *)
Definition GetPodLister (im : nat) : M Lister :=
  m ← load im; FactoryLister (informerFactory m) Pods.

(** [func (im *InformerManager) Listen() (stopCh <-chan struct{})].  The
    bare [return] returns the named result, which is still nil. *)
Definition Listen (im : nat) : M Chan :=
  let stopCh_result := NilChan in
  m ← load im;
  emit (GoFactoryStart (informerFactory m) (stopCh m));;
  m ← load im;
  match pvSynced m, pvcSynced m, podSynced m, configMapSynced m with
  | Some pv, Some pvc, Some pod, Some cm =>
      ok ← WaitForCacheSync (stopCh m) [pv; pvc; pod; cm];
      if negb ok then mret stopCh_result
      else m ← load im; mret (stopCh m)
  | _, _, _, _ => m ← load im; mret (stopCh m)
  end.

(** *** Programs over the package's exported functions *)

Inductive Call :=
| CallNewInformer (client : Client) (inClusterClnt : bool)
| CallAddNodeListener (im : nat) (add update remove : Callback)
| CallAddCSINodeListener (im : nat) (add update remove : Callback)
| CallAddPVCListener (im : nat) (add update remove : Callback)
| CallAddPVListener (im : nat) (add update remove : Callback)
| CallAddNamespaceListener (im : nat) (add update remove : Callback)
| CallAddConfigMapListener (im : nat) (client : Client) (namespace : string)
    (add update remove : Callback)
| CallAddPodListener (im : nat) (add update remove : Callback)
| CallAddVolumeAttachmentListener (im : nat) (add update remove : Callback)
| CallGetPVLister (im : nat)
| CallGetPVCLister (im : nat)
| CallGetConfigMapLister (im : nat)
| CallGetPodLister (im : nat)
| CallListen (im : nat).

Definition exec (c : Call) : M unit :=
  match c with
  | CallNewInformer client b => NewInformer client b;; mret tt
  | CallAddNodeListener im a u r => AddNodeListener im a u r
  | CallAddCSINodeListener im a u r => AddCSINodeListener im a u r
  | CallAddPVCListener im a u r => AddPVCListener im a u r
  | CallAddPVListener im a u r => AddPVListener im a u r
  | CallAddNamespaceListener im a u r => AddNamespaceListener im a u r
  | CallAddConfigMapListener im c ns a u r => AddConfigMapListener im c ns a u r
  | CallAddPodListener im a u r => AddPodListener im a u r
  | CallAddVolumeAttachmentListener im a u r => AddVolumeAttachmentListener im a u r
  | CallGetPVLister im => GetPVLister im;; mret tt
  | CallGetPVCLister im => GetPVCLister im;; mret tt
  | CallGetConfigMapLister im => GetConfigMapLister im;; mret tt
  | CallGetPodLister im => GetPodLister im;; mret tt
  | CallListen im => Listen im;; mret tt
  end.

Fixpoint run (cs : list Call) : M unit :=
  match cs with
  | [] => mret tt
  | c :: cs' => exec c;; run cs'
  end.

(** [w'] is what some sequence of calls makes of [w]. *)
Definition reachable_from (w w' : World) : Prop :=
  ∃ cs, run cs w = Done tt w'.

(** The worlds a process can be in: whatever calls it made since its start. *)
Definition reachable (w : World) : Prop := reachable_from init_world w.

End Informers.

(** The world after a sequence of calls from the start of the process;
    the start itself if the sequence does not run to its end. *)
Definition world_after (cg : ClientGo) (cs : list Call) : World :=
  match run cg cs init_world with
  | Done _ w => w
  | _ => init_world
  end.

(** *** Two environments to run the code in *)

(** Every handler is accepted and every wait ends synchronized. *)
Definition cg_accepting : ClientGo :=
  {| handlerError := fun _ _ _ => None;
     waitOutcome := fun _ _ _ => AllSynced |}.

(** Every handler is refused and every wait is cancelled. *)
Definition cg_refusing : ClientGo :=
  {| handlerError := fun _ _ _ => Some "handler was not added to shared informer";
     waitOutcome := fun _ _ _ => Cancelled |}.

(** Handlers are accepted and no wait ever ends. *)
Definition cg_stuck : ClientGo :=
  {| handlerError := fun _ _ _ => None;
     waitOutcome := fun _ _ _ => NeverReturns |}.

(** *** Invariants of the reachable worlds *)

(** The informer a slot of the manager may hold: every slot but the
    config-map one holds an informer of the manager's own factory; the
    config-map slot holds a filtered informer with the config-map resync
    period. *)
Definition slots_ok (m : InformerManager) : Prop :=
  let f := informerFactory m in
  (∀ i, nodeInformer m = Some i →
        i = FactoryInformer f Nodes ∨ i = FactoryInformer f CSINodes) ∧
  (∀ i, pvcInformer m = Some i → i = FactoryInformer f PersistentVolumeClaims) ∧
  (∀ i, pvInformer m = Some i → i = FactoryInformer f PersistentVolumes) ∧
  (∀ i, namespaceInformer m = Some i → i = FactoryInformer f Namespaces) ∧
  (∀ i, podInformer m = Some i → i = FactoryInformer f Pods) ∧
  (∀ i, volumeAttachmentInformer m = Some i →
        i = FactoryInformer f VolumeAttachments) ∧
  (∀ i, configMapInformer m = Some i →
        ∃ a c ns, i = FilteredConfigMapInformer a c ns
                        resyncPeriodConfigMapInformer [] None).

(** A synced predicate, when set, is the [HasSynced] of the informer in the
    slot of the same kind. *)
Definition synced_ok (m : InformerManager) : Prop :=
  (∀ s, pvSynced m = Some s → ∃ i, pvInformer m = Some i ∧ s = HasSynced i) ∧
  (∀ s, pvcSynced m = Some s → ∃ i, pvcInformer m = Some i ∧ s = HasSynced i) ∧
  (∀ s, podSynced m = Some s → ∃ i, podInformer m = Some i ∧ s = HasSynced i) ∧
  (∀ s, configMapSynced m = Some s →
        ∃ i, configMapInformer m = Some i ∧ s = HasSynced i) ∧
  (∀ s, namespaceSynced m = Some s →
        ∃ i, namespaceInformer m = Some i ∧ s = HasSynced i).

Definition manager_ok (w : World) (m : InformerManager) : Prop :=
  (∃ a, stopCh m = ChanAt a ∧ (a < nextAddr w)%nat) ∧
  (factoryAddr (informerFactory m) < nextAddr w)%nat ∧
  defaultResync (informerFactory m) = 0%Z ∧
  slots_ok m ∧ synced_ok m.

Record Inv (w : World) : Prop := {
  inv_inCluster_unlocked : inClusterLocked w = false;
  inv_supervisor_unlocked : supervisorLocked w = false;
  inv_heap_bound : ∀ p m, heap w !! p = Some m → (p < nextAddr w)%nat;
  inv_inCluster_alloc : ∀ p,
    inClusterInformerManagerInstance w = Some p → is_Some (heap w !! p);
  inv_supervisor_alloc : ∀ p,
    supervisorInformerManagerInstance w = Some p → is_Some (heap w !! p);
  inv_distinct : ∀ p q,
    inClusterInformerManagerInstance w = Some p →
    supervisorInformerManagerInstance w = Some q → p ≠ q;
  inv_managers : ∀ p m, heap w !! p = Some m → manager_ok w m;
  inv_run_loops : ∀ i ch, GoInformerRun i ch ∈ trace w →
    (∃ a, ch = ChanAt a ∧ (a < nextAddr w)%nat) ∧
    (∀ p m, heap w !! p = Some m → stopCh m ≠ ch) ∧
    (∃ a c ns, i = FilteredConfigMapInformer a c ns
                     resyncPeriodConfigMapInformer [] None);
  inv_factory_starts : ∀ f ch, GoFactoryStart f ch ∈ trace w →
    ∃ p m, heap w !! p = Some m ∧ f = informerFactory m ∧ ch = stopCh m
}.

(** What no call ever changes: a package-level variable that is set, and
    the client, the stop channel and the factory of a manager. *)
Definition extends (w w' : World) : Prop :=
  (∀ p, inClusterInformerManagerInstance w = Some p →
        inClusterInformerManagerInstance w' = Some p) ∧
  (∀ p, supervisorInformerManagerInstance w = Some p →
        supervisorInformerManagerInstance w' = Some p) ∧
  (∀ p m, heap w !! p = Some m →
          ∃ m', heap w' !! p = Some m' ∧ client m' = client m ∧
                stopCh m' = stopCh m ∧ informerFactory m' = informerFactory m).

(** The log lines of a history. *)
Definition logs (t : list Event) : list string :=
  omap (fun e => if e is LogInfo msg then Some msg else None) t.

(** The goroutines of a history. *)
Definition is_go (e : Event) : bool :=
  match e with
  | GoFactoryStart _ _ | GoInformerRun _ _ => true
  | _ => false
  end.

(** The slot of [instance] that [NewInformer] uses for an identity. *)
Definition instance_of (inClusterClnt : bool) (w : World) : option nat :=
  if inClusterClnt then inClusterInformerManagerInstance w
  else supervisorInformerManagerInstance w.

Definition fields_ok (m : InformerManager) : Prop := slots_ok m ∧ synced_ok m.

(** The goroutines a method of the manager [m] may launch while the
    allocator moves from [lo] to [hi]: the factory's batch start on the
    manager's stop channel, the run loop of a filtered config-map informer
    on a channel made meanwhile. *)
Definition event_ok (m : InformerManager) (lo hi : nat) (e : Event) : Prop :=
  match e with
  | GoFactoryStart f ch => f = informerFactory m ∧ ch = stopCh m
  | GoInformerRun i ch =>
      (∃ a, ch = ChanAt a ∧ (lo ≤ a < hi)%nat) ∧
      (∃ a c ns, i = FilteredConfigMapInformer a c ns
                       resyncPeriodConfigMapInformer [] None)
  | _ => True
  end.

(** What a method of the manager at [im] does to the world. *)
Definition updates (im : nat) (w w' : World) : Prop :=
  ∃ m m' evs,
    heap w !! im = Some m ∧
    heap w' = <[im := m']> (heap w) ∧
    client m' = client m ∧ stopCh m' = stopCh m ∧
    informerFactory m' = informerFactory m ∧
    (fields_ok m → fields_ok m') ∧
    (nextAddr w ≤ nextAddr w')%nat ∧
    inClusterInformerManagerInstance w' = inClusterInformerManagerInstance w ∧
    supervisorInformerManagerInstance w' = supervisorInformerManagerInstance w ∧
    inClusterLocked w' = inClusterLocked w ∧
    supervisorLocked w' = supervisorLocked w ∧
    trace w' = trace w ++ evs ∧
    Forall (event_ok m (nextAddr w) (nextAddr w')) evs.

(** The manager that [NewInformer] builds for [client] when the allocator
    is at [a]: the stop channel at [a], the factory at [a + 1]. *)
Definition fresh_manager (client : Client) (a : nat) : InformerManager :=
  {| client := client; stopCh := ChanAt a;
     informerFactory := {| factoryAddr := S a; factoryClient := client;
                           defaultResync := noResyncPeriodFunc |};
     nodeInformer := None; pvcInformer := None; pvInformer := None;
     namespaceInformer := None; configMapInformer := None;
     podInformer := None; volumeAttachmentInformer := None;
     pvSynced := None; pvcSynced := None; podSynced := None;
     configMapSynced := None; namespaceSynced := None |}.

Definition creation_notice (inClusterClnt : bool) : string :=
  if inClusterClnt then "Created new informer factory for in-cluster client"
  else "Created new informer factory for supervisor client".

(** The world [NewInformer] leaves when it creates the manager of an
    identity. *)
Definition world_with_new_manager (client : Client) (inClusterClnt : bool)
    (w : World) : World :=
  let a := nextAddr w in
  {| heap := <[S (S a) := fresh_manager client a]> (heap w);
     nextAddr := S (S (S a));
     inClusterInformerManagerInstance :=
       if inClusterClnt then Some (S (S a)) else inClusterInformerManagerInstance w;
     supervisorInformerManagerInstance :=
       if inClusterClnt then supervisorInformerManagerInstance w else Some (S (S a));
     inClusterLocked := inClusterLocked w;
     supervisorLocked := supervisorLocked w;
     factoryInformers := factoryInformers w;
     trace := trace w ++ [LogInfo (creation_notice inClusterClnt)] |}.

(** The five synced predicates of a manager. *)
Definition synced_fields (m : InformerManager) : list (option InformerSynced) :=
  [pvSynced m; pvcSynced m; podSynced m; configMapSynced m; namespaceSynced m].

(** The calls that register a listener on the manager at [im]. *)
Definition registration (im : nat) (c : Call) : bool :=
  match c with
  | CallAddNodeListener im' _ _ _
  | CallAddCSINodeListener im' _ _ _
  | CallAddPVCListener im' _ _ _
  | CallAddPVListener im' _ _ _
  | CallAddNamespaceListener im' _ _ _
  | CallAddConfigMapListener im' _ _ _ _ _
  | CallAddPodListener im' _ _ _
  | CallAddVolumeAttachmentListener im' _ _ _ => bool_decide (im' = im)
  | _ => false
  end.

(** The informer [AddConfigMapListener] works on: the one in the slot, or
    the one it builds when the slot is empty. *)
Definition configMapInformer_for (m : InformerManager) (w : World)
    (client : Client) (namespace : string) : SharedInformer :=
  match configMapInformer m with
  | Some i => i
  | None => FilteredConfigMapInformer (nextAddr w) client namespace
              resyncPeriodConfigMapInformer [] None
  end.

(** The same for a slot that the shared factory fills. *)
Definition factoryInformer_for (slot : option SharedInformer)
    (f : SharedInformerFactory) (k : Kind) : SharedInformer :=
  match slot with
  | Some i => i
  | None => FactoryInformer f k
  end.

(** [im.namespaceSynced = v] on the manager at [im]. *)
Definition poke_namespaceSynced (im : nat) (v : option InformerSynced)
    (w : World) : World :=
  match heap w !! im with
  | Some m => set_heap (<[im := set_namespaceSynced v m]> (heap w)) w
  | None => w
  end.

Definition map_world {A} (f : World → World) (o : Outcome A) : Outcome A :=
  match o with
  | Done a w => Done a (f w)
  | Panics => Panics
  | Blocks => Blocks
  end.

(** *** Sample runs *)

(** The in-cluster manager is created first: its stop channel is at
    address 0, its factory at 1, the manager itself at 2. *)
Definition sample_manager : nat := 2.

Definition sample_factory : SharedInformerFactory :=
  {| factoryAddr := 1; factoryClient := 7; defaultResync := 0%Z |}.

Definition create_manager : list Call := [CallNewInformer 7 true].

Definition register_node_then_csinode : list Call :=
  [CallNewInformer 7 true;
   CallAddNodeListener sample_manager 1 2 3;
   CallAddCSINodeListener sample_manager 4 5 6].

Definition register_config_map : list Call :=
  [CallNewInformer 7 true;
   CallAddConfigMapListener sample_manager 7 "vmware-system-csi" 1 2 3].

Definition register_namespace : list Call :=
  [CallNewInformer 7 true;
   CallAddNamespaceListener sample_manager 1 2 3].

Definition register_pv_only : list Call :=
  [CallNewInformer 7 true;
   CallAddPVListener sample_manager 1 2 3].

Definition register_barrier_kinds : list Call :=
  [CallNewInformer 7 true;
   CallAddPVListener sample_manager 1 2 3;
   CallAddPVCListener sample_manager 1 2 3;
   CallAddPodListener sample_manager 1 2 3;
   CallAddConfigMapListener sample_manager 7 "vmware-system-csi" 1 2 3].

(** The manager at [p], for the runs that have created it. *)
Definition manager_at (w : World) (p : nat) : InformerManager :=
  default (fresh_manager 0 0) (heap w !! p).

(** The events of [w'] that are not in [w] yet. *)
Definition events_since (w w' : World) : list Event :=
  drop (length (trace w)) (trace w').

(** *** Vocabulary for the properties of whole runs *)

(** The manager a call is a method of. *)
Definition target (c : Call) : option nat :=
  match c with
  | CallNewInformer _ _ => None
  | CallAddNodeListener im _ _ _
  | CallAddCSINodeListener im _ _ _
  | CallAddPVCListener im _ _ _
  | CallAddPVListener im _ _ _
  | CallAddNamespaceListener im _ _ _
  | CallAddConfigMapListener im _ _ _ _ _
  | CallAddPodListener im _ _ _
  | CallAddVolumeAttachmentListener im _ _ _
  | CallGetPVLister im
  | CallGetPVCLister im
  | CallGetConfigMapLister im
  | CallGetPodLister im
  | CallListen im => Some im
  end.

(** The callbacks a registration passes to [AddEventHandler]. *)
Definition callbacks (c : Call) : option ResourceEventHandlerFuncs :=
  match c with
  | CallAddNodeListener _ a u r
  | CallAddCSINodeListener _ a u r
  | CallAddPVCListener _ a u r
  | CallAddPVListener _ a u r
  | CallAddNamespaceListener _ a u r
  | CallAddConfigMapListener _ _ _ a u r
  | CallAddPodListener _ a u r
  | CallAddVolumeAttachmentListener _ a u r => Some (handlerFuncs a u r)
  | _ => None
  end.

(** Two calls of the same registration function on the same manager. *)
Definition same_listener (c1 c2 : Call) : bool :=
  match c1, c2 with
  | CallAddNodeListener i _ _ _, CallAddNodeListener j _ _ _
  | CallAddCSINodeListener i _ _ _, CallAddCSINodeListener j _ _ _
  | CallAddPVCListener i _ _ _, CallAddPVCListener j _ _ _
  | CallAddPVListener i _ _ _, CallAddPVListener j _ _ _
  | CallAddNamespaceListener i _ _ _, CallAddNamespaceListener j _ _ _
  | CallAddConfigMapListener i _ _ _ _ _, CallAddConfigMapListener j _ _ _ _ _
  | CallAddPodListener i _ _ _, CallAddPodListener j _ _ _
  | CallAddVolumeAttachmentListener i _ _ _, CallAddVolumeAttachmentListener j _ _ _ =>
      bool_decide (i = j)
  | _, _ => false
  end.

(** The seven informer slots of a manager. *)
Definition slots (m : InformerManager) : list (option SharedInformer) :=
  [nodeInformer m; pvcInformer m; pvInformer m; namespaceInformer m;
   configMapInformer m; podInformer m; volumeAttachmentInformer m].

(** A field that is set keeps its value. *)
Definition keeps {A} (o o' : option A) : Prop := ∀ x, o = Some x → o' = Some x.

(** The [AddEventHandler] calls of a history: informer and callbacks. *)
Definition handler_calls (t : list Event)
  : list (SharedInformer * ResourceEventHandlerFuncs) :=
  omap (fun e => if e is CalledAddEventHandler i h _ then Some (i, h) else None) t.

(** The run loops launched in a history: informer and stop channel. *)
Definition run_loops (t : list Event) : list (SharedInformer * Chan) :=
  omap (fun e => if e is GoInformerRun i ch then Some (i, ch) else None) t.

(** The informers built by [NewFilteredConfigMapInformer] that accepted a
    handler, one entry per accepted [AddEventHandler] call. *)
Definition accepted_on_filtered (t : list Event) : list SharedInformer :=
  omap (fun e =>
          match e with
          | CalledAddEventHandler (FilteredConfigMapInformer _ _ _ _ _ _ as i) _ None =>
              Some i
          | _ => None
          end) t.

(** The mutex [NewInformer] takes for an identity. *)
Definition lock_of (inClusterClnt : bool) : Mutex :=
  if inClusterClnt then inClusterInformerInstanceLock
  else supervisorInformerInstanceLock.

(** What a manager keeps from one moment to a later one: its client, its
    stop channel and its factory, and every informer slot and synced
    predicate that was set. *)
Definition manager_grows (m m' : InformerManager) : Prop :=
  client m' = client m ∧ stopCh m' = stopCh m ∧
  informerFactory m' = informerFactory m ∧
  Forall2 keeps (slots m) (slots m') ∧
  Forall2 keeps (synced_fields m) (synced_fields m').

(** What one call may add to the history, as far as run loops go, while
    the allocator moves from [lo] to [hi]: nothing, or one accepted handler
    on a filtered informer and the run loop of that informer on a channel
    made meanwhile. *)
Definition one_run_loop_at_most (lo hi : nat) (evs : list Event) : Prop :=
  (run_loops evs = [] ∧ accepted_on_filtered evs = []) ∨
  (∃ i a, run_loops evs = [(i, ChanAt a)] ∧ accepted_on_filtered evs = [i] ∧
          (lo ≤ a < hi)%nat).

(** Run loops and accepted config-map handlers go together, and no two
    run loops share a stop channel. *)
Definition run_loops_ok (w : World) : Prop :=
  (run_loops (trace w)).*1 = accepted_on_filtered (trace w) ∧
  NoDup (run_loops (trace w)).*2 ∧
  (∀ ch, ch ∈ (run_loops (trace w)).*2 → ∃ a, ch = ChanAt a ∧ (a < nextAddr w)%nat).

(** The log holds one creation notice for each identity that has its
    instance, and nothing else. *)
Definition logs_ok (w : World) : Prop :=
  NoDup (logs (trace w)) ∧
  (∀ msg, msg ∈ logs (trace w) ↔
          ∃ b, msg = creation_notice b ∧ is_Some (instance_of b w)).

(** A manager at address [p] was built by [NewInformer]: its stop channel
    and its factory are the two allocations just before it, and the factory
    is on the manager's client. *)
Definition built_by_NewInformer (p : nat) (m : InformerManager) : Prop :=
  ∃ a, p = S (S a) ∧ stopCh m = ChanAt a ∧
       informerFactory m = informerFactory (fresh_manager (client m) a).

(** *** Sample runs with both identities *)

(** The supervisor manager is created second: its stop channel is at
    address 3, its factory at 4, the manager itself at 5. *)
Definition supervisor_manager : nat := 5.

Definition create_both_managers : list Call :=
  [CallNewInformer 7 true; CallNewInformer 8 false].

Definition register_config_map_twice : list Call :=
  register_config_map ++
  [CallAddConfigMapListener sample_manager 9 "kube-system" 4 5 6].

Definition later_calls : list Call :=
  [CallAddPVListener sample_manager 4 5 6;
   CallListen sample_manager;
   CallNewInformer 8 false;
   CallAddPodListener sample_manager 1 2 3].

(* ===================================================================== *)
(** ** Properties *)
(* ===================================================================== *)

Section Properties.

Variable cg : ClientGo.

(** *** Inversion of the monad and of the primitive actions *)

Lemma bind_Done {A B} (m : M A) (f : A → M B) w b w' :
  (m ≫= f) w = Done b w' → ∃ a w1, m w = Done a w1 ∧ f a w1 = Done b w'.
Proof.
  unfold mbind, M_bind. destruct (m w) as [a w1| |]; [|discriminate..].
  intros H. by exists a, w1.
Qed.

Lemma ret_Done {A} (a b : A) w w' :
  (mret a : M A) w = Done b w' → a = b ∧ w' = w.
Proof. unfold mret, M_ret. by intros [= -> ->]. Qed.

Lemma load_Done im w m w' :
  load im w = Done m w' → heap w !! im = Some m ∧ w' = w.
Proof. unfold load. destruct (heap w !! im); by intros [= -> ->]. Qed.

Lemma store_Done im upd w u w' :
  store im upd w = Done u w' →
  ∃ m, heap w !! im = Some m ∧ w' = set_heap (<[im := upd m]> (heap w)) w.
Proof. unfold store. destruct (heap w !! im) as [m|]; [|done]. intros [= _ <-]. eauto. Qed.

Lemma alloc_Done w a w' :
  alloc w = Done a w' → a = nextAddr w ∧ w' = set_nextAddr (S (nextAddr w)) w.
Proof. unfold alloc. by intros [= <- <-]. Qed.

Lemma emit_Done e w u w' :
  emit e w = Done u w' → w' = set_trace (trace w ++ [e]) w.
Proof. unfold emit. by intros [= _ <-]. Qed.

Lemma nonnil_Done {A} (o : option A) w a w' :
  nonnil o w = Done a w' → o = Some a ∧ w' = w.
Proof. destruct o; [|done]. by intros [-> ->]%ret_Done. Qed.

Lemma Informer_Done f k w i w' :
  Informer f k w = Done i w' →
  i = FactoryInformer f k ∧ ∃ l, w' = set_factoryInformers l w.
Proof.
  unfold Informer. case_decide; intros [= <- <-]; split; eauto.
  exists (factoryInformers w). by destruct w.
Qed.

Lemma AddEventHandler_Done i h w err w' :
  AddEventHandler cg i h w = Done err w' →
  err = handlerError cg i h (trace w) ∧
  w' = set_trace (trace w ++ [CalledAddEventHandler i h err]) w.
Proof. unfold AddEventHandler. by intros [= <- <-]. Qed.

Lemma WaitForCacheSync_Done stop syncs w ok w' :
  WaitForCacheSync cg stop syncs w = Done ok w' →
  w' = set_trace (trace w ++ [CalledWaitForCacheSync stop syncs]) w ∧
  waitOutcome cg stop syncs (trace w) = (if ok then AllSynced else Cancelled).
Proof.
  unfold WaitForCacheSync.
  destruct (waitOutcome cg stop syncs (trace w)); [| |done]; by intros [= <- <-].
Qed.

Lemma Lock_Done mu w u w' :
  Lock mu w = Done u w' → locked mu w = false ∧ w' = set_locked mu true w.
Proof. unfold Lock. destruct (locked mu w); [done|]. by intros [= _ <-]. Qed.

Lemma Unlock_Done mu w u w' :
  Unlock mu w = Done u w' → locked mu w = true ∧ w' = set_locked mu false w.
Proof. unfold Unlock. destruct (locked mu w); [|done]. by intros [= _ <-]. Qed.

(** Symbolic execution of a call that returned: [H : op w = Done a w']
    becomes the facts the primitive actions leave. *)
Ltac inv_step :=
  match goal with
  | H : (_ ≫= _) _ = Done _ _ |- _ =>
      apply bind_Done in H as (? & ? & ? & H)
  | H : @mret M _ _ _ _ = Done _ _ |- _ => apply ret_Done in H as [? ?]
  | H : load _ _ = Done _ _ |- _ => apply load_Done in H as [H ?]
  | H : store _ _ _ = Done _ _ |- _ => apply store_Done in H as (? & H & ?)
  | H : alloc _ = Done _ _ |- _ => apply alloc_Done in H as [? ?]
  | H : emit _ _ = Done _ _ |- _ => apply emit_Done in H
  | H : nonnil _ _ = Done _ _ |- _ => apply nonnil_Done in H as [H ?]
  | H : Informer _ _ _ = Done _ _ |- _ => apply Informer_Done in H as (? & ? & ?)
  | H : AddEventHandler _ _ _ _ = Done _ _ |- _ =>
      apply AddEventHandler_Done in H as [? ?]
  | H : WaitForCacheSync _ _ _ _ = Done _ _ |- _ =>
      apply WaitForCacheSync_Done in H as [? H]
  | H : Lock _ _ = Done _ _ |- _ => apply Lock_Done in H as [H ?]
  | H : Unlock _ _ = Done _ _ |- _ => apply Unlock_Done in H as [H ?]
  | H : (match ?x with _ => _ end) _ = Done _ _ |- _ =>
      let E := fresh "E" in destruct x eqn:E
  | H : Done _ _ = Done _ _ |- _ => injection H as ? ?
  | H : Panics = Done _ _ |- _ => discriminate H
  | H : Blocks = Done _ _ |- _ => discriminate H
  end.

Ltac inv_op H :=
  unfold exec, NewInformer, AddNodeListener, AddCSINodeListener, AddPVCListener,
    AddPVListener, AddNamespaceListener, AddConfigMapListener, AddPodListener,
    AddVolumeAttachmentListener, GetPVLister, GetPVCLister, GetConfigMapLister,
    GetPodLister, Listen, FactoryLister, NewFilteredConfigMapInformer,
    NewSharedInformerFactory, SetupSignalHandler, make_chan, new,
    read_inClusterInformerManagerInstance,
    read_supervisorInformerManagerInstance,
    write_inClusterInformerManagerInstance,
    write_supervisorInformerManagerInstance in H;
  repeat (inv_step; subst; cbn in *; rewrite ?lookup_insert_eq in *; simplify_eq/=).

(** *** Methods of a manager *)

Lemma updates_extends im w w' : updates im w w' → extends w w'.
Proof.
  intros (m & m' & evs & Hm & Hh & Hc & Hs & Hf & _ & _ & Hi & Hv & _).
  repeat split.
  - intros p. by rewrite Hi.
  - intros p. by rewrite Hv.
  - intros p m0 Hp. rewrite Hh. destruct (decide (p = im)) as [->|Hne].
    + rewrite lookup_insert_eq. simplify_eq. eauto.
    + rewrite lookup_insert_ne; [|done]. eauto.
Qed.

Lemma updates_Inv im w w' : updates im w w' → Inv w → Inv w'.
Proof.
  intros (m & m' & evs & Hm & Hh & Hc & Hs & Hf & Hok & Hle & Hi & Hv & Hli & Hlv
          & Ht & Hev) HI.
  assert (Hmok : manager_ok w m) by (by eapply inv_managers).
  assert (Hheap : ∀ p m1, heap w' !! p = Some m1 →
            ∃ m0, heap w !! p = Some m0 ∧ stopCh m1 = stopCh m0 ∧
                  informerFactory m1 = informerFactory m0 ∧
                  (fields_ok m0 → fields_ok m1)).
  { intros p m1. rewrite Hh. destruct (decide (p = im)) as [->|Hne].
    - rewrite lookup_insert_eq. intros [= <-]. eauto.
    - rewrite lookup_insert_ne; [|done]. eauto. }
  split.
  - rewrite Hli. apply HI.
  - rewrite Hlv. apply HI.
  - intros p m1 (m0 & H0 & _)%Hheap. eapply inv_heap_bound in H0; [lia|done].
  - intros p. rewrite Hi, Hh. intros Hp%(inv_inCluster_alloc _ HI).
    destruct (decide (p = im)) as [->|Hne];
      [by rewrite lookup_insert_eq | by rewrite lookup_insert_ne].
  - intros p. rewrite Hv, Hh. intros Hp%(inv_supervisor_alloc _ HI).
    destruct (decide (p = im)) as [->|Hne];
      [by rewrite lookup_insert_eq | by rewrite lookup_insert_ne].
  - intros p q. rewrite Hi, Hv. apply HI.
  - intros p m1 (m0 & H0 & Hs0 & Hf0 & Hok0)%Hheap.
    pose proof (inv_managers _ HI _ _ H0) as (Ha & Hb & Hr & Hfo).
    split; [|split; [|split]].
    + destruct Ha as (a & Ha & Hlt). exists a. rewrite Hs0. split; [done|lia].
    + rewrite Hf0. lia.
    + by rewrite Hf0.
    + by apply Hok0.
  - intros i ch. rewrite Ht, elem_of_app. intros [Hin|Hin].
    + destruct (inv_run_loops _ HI _ _ Hin) as ((a & -> & Hlt) & Hne & Hi').
      split; [exists a; split; [done|lia]|]. split; [|done].
      intros p m1 (m0 & H0 & -> & _)%Hheap. eauto.
    + rewrite Forall_forall in Hev. apply Hev in Hin.
      destruct Hin as ((a & -> & Hlo) & Hi').
      split; [exists a; split; [done|lia]|]. split; [|done].
      intros p m1 (m0 & H0 & -> & _)%Hheap.
      destruct (inv_managers _ HI _ _ H0) as ((b & -> & Hb) & _).
      intros [= ->]. lia.
  - intros f ch. rewrite Ht, elem_of_app. intros [Hin|Hin].
    + destruct (inv_factory_starts _ HI _ _ Hin) as (p & m0 & H0 & -> & ->).
      destruct (updates_extends im w w') as (_ & _ & He).
      { by exists m, m', evs. }
      destruct (He _ _ H0) as (m1 & H1 & _ & <- & <-). eauto.
    + rewrite Forall_forall in Hev. apply Hev in Hin. destruct Hin as [-> ->].
      exists im, m'. rewrite Hh, lookup_insert_eq. by rewrite Hf, Hs.
Qed.

Ltac solve_fields_ok :=
  unfold fields_ok, slots_ok, synced_ok; cbn;
  intros [(? & ? & ? & ? & ? & ? & ?) (? & ? & ? & ? & ?)];
  repeat split; intros; simplify_eq; eauto.

Ltac solve_updates :=
  match goal with
  | Hm : heap ?w !! ?im = Some ?m |- updates ?im ?w _ =>
      exists m; eexists; eexists; split; [exact Hm|];
      split;
      [ cbn; rewrite ?insert_insert_eq;
        first [ reflexivity | symmetry; apply insert_id; exact Hm ] |];
      cbn; rewrite <- ?app_assoc;
      repeat match goal with
             | |- _ ∧ _ => split
             | |- _ = _ => first [reflexivity | by rewrite app_nil_r]
             | |- (_ ≤ _)%nat => lia
             end
  end.

Ltac solve_rest :=
  first
    [ solve_fields_ok
    | by (repeat constructor; cbn; eauto 10 with lia) ].

Lemma AddNodeListener_updates im a u r w x w' :
  AddNodeListener cg im a u r w = Done x w' → updates im w w'.
Proof. intros H. inv_op H; solve_updates; solve_rest. Qed.

Lemma AddCSINodeListener_updates im a u r w x w' :
  AddCSINodeListener cg im a u r w = Done x w' → updates im w w'.
Proof. intros H. inv_op H; solve_updates; solve_rest. Qed.

Lemma AddPVCListener_updates im a u r w x w' :
  AddPVCListener cg im a u r w = Done x w' → updates im w w'.
Proof. intros H. inv_op H; solve_updates; solve_rest. Qed.

Lemma AddPVListener_updates im a u r w x w' :
  AddPVListener cg im a u r w = Done x w' → updates im w w'.
Proof. intros H. inv_op H; solve_updates; solve_rest. Qed.

Lemma AddNamespaceListener_updates im a u r w x w' :
  AddNamespaceListener cg im a u r w = Done x w' → updates im w w'.
Proof. intros H. inv_op H; solve_updates; solve_rest. Qed.

Lemma AddPodListener_updates im a u r w x w' :
  AddPodListener cg im a u r w = Done x w' → updates im w w'.
Proof. intros H. inv_op H; solve_updates; solve_rest. Qed.

Lemma AddVolumeAttachmentListener_updates im a u r w x w' :
  AddVolumeAttachmentListener cg im a u r w = Done x w' → updates im w w'.
Proof. intros H. inv_op H; solve_updates; solve_rest. Qed.

Lemma GetPVLister_updates im w x w' :
  GetPVLister im w = Done x w' → updates im w w'.
Proof. intros H. inv_op H; solve_updates; solve_rest. Qed.

Lemma GetPVCLister_updates im w x w' :
  GetPVCLister im w = Done x w' → updates im w w'.
Proof. intros H. inv_op H; solve_updates; solve_rest. Qed.

Lemma GetConfigMapLister_updates im w x w' :
  GetConfigMapLister im w = Done x w' → updates im w w'.
Proof. intros H. inv_op H; solve_updates; solve_rest. Qed.

Lemma GetPodLister_updates im w x w' :
  GetPodLister im w = Done x w' → updates im w w'.
Proof. intros H. inv_op H; solve_updates; solve_rest. Qed.

Lemma Listen_updates im w x w' :
  Listen cg im w = Done x w' → updates im w w'.
Proof. intros H. inv_op H; solve_updates; solve_rest. Qed.

Lemma AddConfigMapListener_updates im c ns a u r w x w' :
  Inv w → AddConfigMapListener cg im c ns a u r w = Done x w' → updates im w w'.
Proof.
  intros HI H. inv_op H; solve_updates; try solve_rest.
  repeat constructor; cbn; [eexists; split; [done|lia]|].
  match goal with
  | Hm : heap w !! im = Some ?m |- _ =>
      destruct (inv_managers _ HI _ _ Hm) as (_ & _ & _ & Hs & _)
  end.
  by apply Hs.
Qed.

(** *** The instance registry *)

Lemma NewInformer_existing c b w q :
  Inv w → instance_of b w = Some q → NewInformer c b w = Done q w.
Proof.
  intros HI Hq.
  pose proof (inv_inCluster_unlocked _ HI) as Hl1.
  pose proof (inv_supervisor_unlocked _ HI) as Hl2.
  destruct w; cbn in *.
  destruct b; cbn in Hq; subst;
    unfold NewInformer, mbind, M_bind, Lock, Unlock,
      read_inClusterInformerManagerInstance,
      read_supervisorInformerManagerInstance; by cbn.
Qed.

Lemma NewInformer_fresh c b w :
  Inv w → instance_of b w = None →
  NewInformer c b w = Done (S (S (nextAddr w))) (world_with_new_manager c b w).
Proof.
  intros HI Hq.
  pose proof (inv_inCluster_unlocked _ HI) as Hl1.
  pose proof (inv_supervisor_unlocked _ HI) as Hl2.
  destruct w; cbn in *.
  destruct b; cbn in Hq; subst;
    unfold NewInformer, mbind, M_bind, Lock, Unlock,
      read_inClusterInformerManagerInstance,
      read_supervisorInformerManagerInstance; by cbn.
Qed.

Lemma new_manager_extends c b w :
  Inv w → instance_of b w = None → extends w (world_with_new_manager c b w).
Proof.
  intros HI Hq. repeat split.
  - intros p Hp. destruct b; cbn in *; [congruence|done].
  - intros p Hp. destruct b; cbn in *; [done|congruence].
  - intros p m Hp. exists m. cbn.
    pose proof (inv_heap_bound _ HI _ _ Hp).
    rewrite lookup_insert_ne; [done|lia].
Qed.

Lemma new_manager_Inv c b w :
  Inv w → instance_of b w = None → Inv (world_with_new_manager c b w).
Proof.
  intros HI Hq.
  assert (Hheap : ∀ p m, heap (world_with_new_manager c b w) !! p = Some m →
            (p = S (S (nextAddr w)) ∧ m = fresh_manager c (nextAddr w)) ∨
            ((p < nextAddr w)%nat ∧ heap w !! p = Some m)).
  { intros p m. cbn. destruct (decide (p = S (S (nextAddr w)))) as [->|Hne].
    - rewrite lookup_insert_eq. intros [= <-]. by left.
    - rewrite lookup_insert_ne; [|done]. intros Hp. right.
      split; [by eapply inv_heap_bound|done]. }
  split.
  - apply HI.
  - apply HI.
  - intros p m [[-> _]|[Hlt _]]%Hheap; cbn; lia.
  - intros p Hp. cbn in *. destruct b.
    + simplify_eq. by rewrite lookup_insert_eq.
    + apply (inv_inCluster_alloc _ HI) in Hp as [m Hm].
      pose proof (inv_heap_bound _ HI _ _ Hm).
      rewrite lookup_insert_ne; [by eexists|lia].
  - intros p Hp. cbn in *. destruct b.
    + apply (inv_supervisor_alloc _ HI) in Hp as [m Hm].
      pose proof (inv_heap_bound _ HI _ _ Hm).
      rewrite lookup_insert_ne; [by eexists|lia].
    + simplify_eq. by rewrite lookup_insert_eq.
  - intros p q Hp Hq'. cbn in *. destruct b; simplify_eq.
    + apply (inv_supervisor_alloc _ HI) in Hq' as [m Hm].
      pose proof (inv_heap_bound _ HI _ _ Hm). lia.
    + apply (inv_inCluster_alloc _ HI) in Hp as [m Hm].
      pose proof (inv_heap_bound _ HI _ _ Hm). lia.
  - intros p m [[-> ->]|[Hlt Hm]]%Hheap.
    + repeat split; cbn; try done; try lia.
      exists (nextAddr w). split; [done|lia].
    + destruct (inv_managers _ HI _ _ Hm) as ((a & Ha & Hlt') & Hf & Hr & Hs).
      split; [exists a; split; [done|cbn; lia]|].
      split; [cbn; lia|]. by split.
  - intros i ch. cbn. rewrite elem_of_app, list_elem_of_singleton.
    intros [Hin|[=]].
    destruct (inv_run_loops _ HI _ _ Hin) as ((a & -> & Hlt) & Hne & Hi).
    split; [exists a; split; [done|lia]|]. split; [|done].
    intros p m [[-> ->]|[_ Hm]]%Hheap; [|by eapply Hne].
    cbn. intros [= Heq]. lia.
  - intros f ch. cbn [trace world_with_new_manager].
    rewrite elem_of_app, list_elem_of_singleton.
    intros [Hin|[=]].
    destruct (inv_factory_starts _ HI _ _ Hin) as (p & m & Hm & -> & ->).
    exists p, m. split; [|done]. cbn.
    pose proof (inv_heap_bound _ HI _ _ Hm).
    rewrite lookup_insert_ne; [done|lia].
Qed.

Lemma extends_refl w : extends w w.
Proof. repeat split; eauto. Qed.

Lemma extends_trans w1 w2 w3 : extends w1 w2 → extends w2 w3 → extends w1 w3.
Proof.
  intros (Ha & Hb & Hc) (Ha' & Hb' & Hc'). repeat split; eauto.
  intros p m (m' & Hm' & <- & <- & <-)%Hc.
  destruct (Hc' _ _ Hm') as (m'' & ? & ? & ? & ?). eauto.
Qed.

Lemma NewInformer_Inv c b w p w' :
  Inv w → NewInformer c b w = Done p w' →
  Inv w' ∧ extends w w' ∧ instance_of b w' = Some p.
Proof.
  intros HI H. destruct (instance_of b w) as [q|] eqn:Hq.
  - rewrite (NewInformer_existing c b w q HI Hq) in H. simplify_eq.
    eauto using extends_refl.
  - rewrite (NewInformer_fresh c b w HI Hq) in H. simplify_eq.
    split; [by apply new_manager_Inv|]. split; [by apply new_manager_extends|].
    by destruct b.
Qed.

Lemma exec_Inv c w w' :
  Inv w → exec cg c w = Done tt w' → Inv w' ∧ extends w w'.
Proof.
  intros HI H.
  assert (Hu : ∀ im, updates im w w' → Inv w' ∧ extends w w')
    by eauto using updates_Inv, updates_extends.
  destruct c; cbn [exec] in H;
    try (apply bind_Done in H as (? & ? & H & [_ ->]%ret_Done));
    [ apply NewInformer_Inv in H as (? & ? & _); done
    | eapply Hu, AddNodeListener_updates, H
    | eapply Hu, AddCSINodeListener_updates, H
    | eapply Hu, AddPVCListener_updates, H
    | eapply Hu, AddPVListener_updates, H
    | eapply Hu, AddNamespaceListener_updates, H
    | eapply Hu, AddConfigMapListener_updates, H; exact HI
    | eapply Hu, AddPodListener_updates, H
    | eapply Hu, AddVolumeAttachmentListener_updates, H
    | eapply Hu, GetPVLister_updates, H
    | eapply Hu, GetPVCLister_updates, H
    | eapply Hu, GetConfigMapLister_updates, H
    | eapply Hu, GetPodLister_updates, H
    | eapply Hu, Listen_updates, H ].
Qed.

Lemma run_Inv cs w w' :
  Inv w → run cg cs w = Done tt w' → Inv w' ∧ extends w w'.
Proof.
  revert w. induction cs as [|c cs IH]; intros w HI H.
  - apply ret_Done in H as [_ ->]. eauto using extends_refl.
  - cbn [run] in H. apply bind_Done in H as ([] & w1 & H1 & H2).
    destruct (exec_Inv _ _ _ HI H1) as [HI1 He1].
    destruct (IH _ HI1 H2) as [HI2 He2].
    eauto using extends_trans.
Qed.

Lemma init_Inv : Inv init_world.
Proof.
  split; cbn; try done.
  - intros i ch Hin. by apply not_elem_of_nil in Hin.
  - intros f ch Hin. by apply not_elem_of_nil in Hin.
Qed.

Lemma reachable_Inv w : reachable cg w → Inv w.
Proof. intros [cs H]. by apply (run_Inv cs init_world w init_Inv). Qed.

Lemma reachable_from_Inv w w' :
  Inv w → reachable_from cg w w' → Inv w' ∧ extends w w'.
Proof. intros HI [cs H]. by apply (run_Inv cs w w'). Qed.

(** *** Registration returns *)

Ltac run_fwd Hm :=
  unfold AddNodeListener, AddCSINodeListener, AddPVCListener,
    AddPVListener, AddNamespaceListener, AddConfigMapListener, AddPodListener,
    AddVolumeAttachmentListener, NewFilteredConfigMapInformer, make_chan,
    mbind, M_bind, mret, M_ret, load, store, nonnil, Informer,
    AddEventHandler, emit, alloc, panic;
  cbn;
  repeat first
    [ progress (rewrite ?lookup_insert_eq, ?Hm; cbn)
    | match goal with
      | |- context [match ?x with _ => _ end] =>
          lazymatch x with
          | context [match _ with _ => _ end] => fail
          | context [@lookup] => fail
          | _ => destruct x eqn:?; cbn
          end
      end ];
  simplify_map_eq; eauto.

Lemma AddNodeListener_returns im a u r w m :
  heap w !! im = Some m → ∃ w', AddNodeListener cg im a u r w = Done tt w'.
Proof. intros Hm. run_fwd Hm. Qed.

Lemma AddCSINodeListener_returns im a u r w m :
  heap w !! im = Some m → ∃ w', AddCSINodeListener cg im a u r w = Done tt w'.
Proof. intros Hm. run_fwd Hm. Qed.

Lemma AddPVCListener_returns im a u r w m :
  heap w !! im = Some m → ∃ w', AddPVCListener cg im a u r w = Done tt w'.
Proof. intros Hm. run_fwd Hm. Qed.

Lemma AddPVListener_returns im a u r w m :
  heap w !! im = Some m → ∃ w', AddPVListener cg im a u r w = Done tt w'.
Proof. intros Hm. run_fwd Hm. Qed.

Lemma AddNamespaceListener_returns im a u r w m :
  heap w !! im = Some m → ∃ w', AddNamespaceListener cg im a u r w = Done tt w'.
Proof. intros Hm. run_fwd Hm. Qed.

Lemma AddPodListener_returns im a u r w m :
  heap w !! im = Some m → ∃ w', AddPodListener cg im a u r w = Done tt w'.
Proof. intros Hm. run_fwd Hm. Qed.

Lemma AddVolumeAttachmentListener_returns im a u r w m :
  heap w !! im = Some m → ∃ w', AddVolumeAttachmentListener cg im a u r w = Done tt w'.
Proof. intros Hm. run_fwd Hm. Qed.

Lemma AddConfigMapListener_returns im c ns a u r w m :
  heap w !! im = Some m → ∃ w', AddConfigMapListener cg im c ns a u r w = Done tt w'.
Proof. intros Hm. run_fwd Hm. Qed.

(** *** The barrier of [Listen] *)

Lemma Listen_eval im w m :
  heap w !! im = Some m →
  Listen cg im w =
    let w1 := set_trace (trace w ++ [GoFactoryStart (informerFactory m) (stopCh m)]) w in
    match pvSynced m, pvcSynced m, podSynced m, configMapSynced m with
    | Some pv, Some pvc, Some pod, Some cm =>
        let w2 := set_trace (trace w1 ++
                    [CalledWaitForCacheSync (stopCh m) [pv; pvc; pod; cm]]) w1 in
        match waitOutcome cg (stopCh m) [pv; pvc; pod; cm] (trace w1) with
        | AllSynced => Done (stopCh m) w2
        | Cancelled => Done NilChan w2
        | NeverReturns => Blocks
        end
    | _, _, _, _ => Done (stopCh m) w1
    end.
Proof.
  intros Hm.
  unfold Listen, mbind, M_bind, mret, M_ret, load, emit, WaitForCacheSync.
  cbn. rewrite Hm. cbn. rewrite Hm.
  destruct (pvSynced m), (pvcSynced m), (podSynced m), (configMapSynced m);
    cbn; rewrite ?Hm; try done.
  destruct (waitOutcome cg _ _ _); cbn; by rewrite ?Hm.
Qed.

(** *** What a registration does to its manager and to the history *)

Ltac solve_effect :=
  unfold factoryInformer_for, configMapInformer_for in *;
  repeat match goal with
         | E : ?f ?m = _ |- context [?f ?m] => rewrite E
         end;
  cbn; rewrite ?lookup_insert_eq; rewrite <- ?app_assoc;
  repeat split; try done;
  match goal with
  | |- Some _ = Some _ => f_equal
  | _ => idtac
  end;
  match goal with
  | m : InformerManager |- _ => destruct m; simplify_eq/=; done
  end.

Lemma AddNodeListener_effect im a u r w m :
  heap w !! im = Some m →
  let i := factoryInformer_for (nodeInformer m) (informerFactory m) Nodes in
  let h := handlerFuncs a u r in
  ∃ w', AddNodeListener cg im a u r w = Done tt w' ∧
    heap w' !! im = Some (set_nodeInformer (Some i) m) ∧
    trace w' = trace w ++ [CalledAddEventHandler i h (handlerError cg i h (trace w))].
Proof.
  intros Hm i h. destruct (AddNodeListener_returns im a u r w m Hm) as [w' H].
  exists w'. split; [exact H|]. subst i h. inv_op H; solve_effect.
Qed.

Lemma AddCSINodeListener_effect im a u r w m :
  heap w !! im = Some m →
  let i := factoryInformer_for (nodeInformer m) (informerFactory m) CSINodes in
  let h := handlerFuncs a u r in
  ∃ w', AddCSINodeListener cg im a u r w = Done tt w' ∧
    heap w' !! im = Some (set_nodeInformer (Some i) m) ∧
    trace w' = trace w ++ [CalledAddEventHandler i h (handlerError cg i h (trace w))].
Proof.
  intros Hm i h. destruct (AddCSINodeListener_returns im a u r w m Hm) as [w' H].
  exists w'. split; [exact H|]. subst i h. inv_op H; solve_effect.
Qed.

Lemma AddPVCListener_effect im a u r w m :
  heap w !! im = Some m →
  let i := factoryInformer_for (pvcInformer m) (informerFactory m) PersistentVolumeClaims in
  let h := handlerFuncs a u r in
  ∃ w', AddPVCListener cg im a u r w = Done tt w' ∧
    heap w' !! im = Some (set_pvcSynced (Some (HasSynced i)) (set_pvcInformer (Some i) m)) ∧
    trace w' = trace w ++ [CalledAddEventHandler i h (handlerError cg i h (trace w))].
Proof.
  intros Hm i h. destruct (AddPVCListener_returns im a u r w m Hm) as [w' H].
  exists w'. split; [exact H|]. subst i h. inv_op H; solve_effect.
Qed.

Lemma AddPVListener_effect im a u r w m :
  heap w !! im = Some m →
  let i := factoryInformer_for (pvInformer m) (informerFactory m) PersistentVolumes in
  let h := handlerFuncs a u r in
  ∃ w', AddPVListener cg im a u r w = Done tt w' ∧
    heap w' !! im = Some (set_pvSynced (Some (HasSynced i)) (set_pvInformer (Some i) m)) ∧
    trace w' = trace w ++ [CalledAddEventHandler i h (handlerError cg i h (trace w))].
Proof.
  intros Hm i h. destruct (AddPVListener_returns im a u r w m Hm) as [w' H].
  exists w'. split; [exact H|]. subst i h. inv_op H; solve_effect.
Qed.

Lemma AddNamespaceListener_effect im a u r w m :
  heap w !! im = Some m →
  let i := factoryInformer_for (namespaceInformer m) (informerFactory m) Namespaces in
  let h := handlerFuncs a u r in
  ∃ w', AddNamespaceListener cg im a u r w = Done tt w' ∧
    heap w' !! im = Some (set_namespaceSynced (Some (HasSynced i)) (set_namespaceInformer (Some i) m)) ∧
    trace w' = trace w ++ [CalledAddEventHandler i h (handlerError cg i h (trace w))].
Proof.
  intros Hm i h. destruct (AddNamespaceListener_returns im a u r w m Hm) as [w' H].
  exists w'. split; [exact H|]. subst i h. inv_op H; solve_effect.
Qed.

Lemma AddPodListener_effect im a u r w m :
  heap w !! im = Some m →
  let i := factoryInformer_for (podInformer m) (informerFactory m) Pods in
  let h := handlerFuncs a u r in
  ∃ w', AddPodListener cg im a u r w = Done tt w' ∧
    heap w' !! im = Some (set_podSynced (Some (HasSynced i)) (set_podInformer (Some i) m)) ∧
    trace w' = trace w ++ [CalledAddEventHandler i h (handlerError cg i h (trace w))].
Proof.
  intros Hm i h. destruct (AddPodListener_returns im a u r w m Hm) as [w' H].
  exists w'. split; [exact H|]. subst i h. inv_op H; solve_effect.
Qed.

Lemma AddVolumeAttachmentListener_effect im a u r w m :
  heap w !! im = Some m →
  let i := factoryInformer_for (volumeAttachmentInformer m) (informerFactory m) VolumeAttachments in
  let h := handlerFuncs a u r in
  ∃ w', AddVolumeAttachmentListener cg im a u r w = Done tt w' ∧
    heap w' !! im = Some (set_volumeAttachmentInformer (Some i) m) ∧
    trace w' = trace w ++ [CalledAddEventHandler i h (handlerError cg i h (trace w))].
Proof.
  intros Hm i h. destruct (AddVolumeAttachmentListener_returns im a u r w m Hm) as [w' H].
  exists w'. split; [exact H|]. subst i h. inv_op H; solve_effect.
Qed.

Lemma AddConfigMapListener_effect im c ns a u r w m :
  heap w !! im = Some m →
  let i := configMapInformer_for m w c ns in
  let h := handlerFuncs a u r in
  let err := handlerError cg i h (trace w) in
  ∃ w', AddConfigMapListener cg im c ns a u r w = Done tt w' ∧
    heap w' !! im =
      Some (set_configMapSynced (Some (HasSynced i)) (set_configMapInformer (Some i) m)) ∧
    trace w' = trace w ++ CalledAddEventHandler i h err ::
      (if err is Some _ then []
       else [GoInformerRun i (ChanAt (if configMapInformer m is Some _
                                      then nextAddr w else S (nextAddr w)))]).
Proof.
  intros Hm i h err. destruct (AddConfigMapListener_returns im c ns a u r w m Hm) as [w' H].
  exists w'. split; [exact H|]. subst i h err. inv_op H; solve_effect.
Qed.

(* ===================================================================== *)
(** ** The claims of the specification *)
(* ===================================================================== *)

(** C1.  [NewInformer] is a singleton per identity.  In every world the
    process can reach, a call for an identity returns an instance [p];
    from then on, whatever calls are made in between, a call for the
    same identity returns [p] again and changes nothing, so the client of
    the later call is dropped and the instance keeps the client it was
    built with; and a call for the other identity never returns [p].  When
    the identity had no instance, [p] is the manager built from the client of
    this call. *)
Theorem NewInformer_singleton (w : World) (c1 : Client) (b : bool) :
  reachable cg w →
  ∃ p w1,
    NewInformer c1 b w = Done p w1 ∧
    (instance_of b w = None →
       heap w1 !! p = Some (fresh_manager c1 (nextAddr w))) ∧
    (∀ w2 c2, reachable_from cg w1 w2 →
       NewInformer c2 b w2 = Done p w2 ∧
       ∃ m1 m2, heap w1 !! p = Some m1 ∧ heap w2 !! p = Some m2 ∧
                client m2 = client m1) ∧
    (∀ w2 c2 q w3, reachable_from cg w1 w2 →
       NewInformer c2 (negb b) w2 = Done q w3 → q ≠ p).
Proof.
  intros HI%reachable_Inv.
  assert (∃ p w1, NewInformer c1 b w = Done p w1 ∧
            (instance_of b w = None →
               heap w1 !! p = Some (fresh_manager c1 (nextAddr w))))
    as (p & w1 & Hrun & Hnew).
  { destruct (instance_of b w) as [q|] eqn:Hq.
    - exists q, w. split; [by apply NewInformer_existing|done].
    - eexists _, _. split; [by apply NewInformer_fresh|].
      intros _. cbn. by rewrite lookup_insert_eq. }
  exists p, w1. split; [done|]. split; [done|].
  destruct (NewInformer_Inv _ _ _ _ _ HI Hrun) as (HI1 & _ & Hp).
  assert (Hlater : ∀ w2, reachable_from cg w1 w2 →
            Inv w2 ∧ extends w1 w2 ∧ instance_of b w2 = Some p).
  { intros w2 Hr. destruct (reachable_from_Inv _ _ HI1 Hr) as [HI2 He].
    split; [done|]. split; [done|].
    destruct He as (Hin & Hsv & _). destruct b; cbn in *; eauto. }
  split.
  - intros w2 c2 (HI2 & He & Hp2)%Hlater.
    split; [by apply NewInformer_existing|].
    assert (is_Some (heap w1 !! p)) as [m1 Hm1].
    { destruct b; cbn in Hp;
        [by eapply inv_inCluster_alloc | by eapply inv_supervisor_alloc]. }
    destruct He as (_ & _ & Hh). destruct (Hh _ _ Hm1) as (m2 & Hm2 & Hc & _).
    by exists m1, m2.
  - intros w2 c2 q w3 (HI2 & _ & Hp2)%Hlater Hq.
    destruct (NewInformer_Inv _ _ _ _ _ HI2 Hq) as (HI3 & (Hin & Hsv & _) & Hq3).
    destruct b; cbn in *.
    + intros ->. by eapply (inv_distinct _ HI3 p p); eauto.
    + intros ->. by eapply (inv_distinct _ HI3 p p); eauto.
Qed.

(** C2.  When one of the four synced predicates that [Listen] looks at is
    nil, [Listen] returns the manager's stop channel: it has launched the
    factory's batch start and nothing else, it has not called
    [cache.WaitForCacheSync], and it returns whatever that wait would have
    done, an endless one included. *)
Theorem Listen_skips_barrier (w : World) (im : nat) (m : InformerManager) :
  heap w !! im = Some m →
  pvSynced m = None ∨ pvcSynced m = None ∨ podSynced m = None ∨
    configMapSynced m = None →
  Listen cg im w =
    Done (stopCh m)
      (set_trace (trace w ++ [GoFactoryStart (informerFactory m) (stopCh m)]) w).
Proof.
  intros Hm Hnil. rewrite (Listen_eval _ _ _ Hm). cbn.
  destruct (pvSynced m), (pvcSynced m), (podSynced m), (configMapSynced m);
    try done.
  by destruct Hnil as [|[|[|]]].
Qed.

(** C3.  When the four synced predicates are set, [Listen] launches the
    factory's batch start and waits on the four with the manager's stop
    channel.  A wait that is cancelled makes it return the nil channel,
    which is not the manager's stop channel; a wait that ends synchronized
    makes it return the manager's stop channel; a wait that never ends
    makes it never return. *)
Theorem Listen_barrier (w : World) (im : nat) (m : InformerManager)
    (pv pvc pod cm : InformerSynced) :
  reachable cg w →
  heap w !! im = Some m →
  pvSynced m = Some pv → pvcSynced m = Some pvc → podSynced m = Some pod →
  configMapSynced m = Some cm →
  let go := GoFactoryStart (informerFactory m) (stopCh m) in
  let wait := CalledWaitForCacheSync (stopCh m) [pv; pvc; pod; cm] in
  let w' := set_trace (trace w ++ [go; wait]) w in
  stopCh m ≠ NilChan ∧
  Listen cg im w =
    match waitOutcome cg (stopCh m) [pv; pvc; pod; cm] (trace w ++ [go]) with
    | Cancelled => Done NilChan w'
    | AllSynced => Done (stopCh m) w'
    | NeverReturns => Blocks
    end.
Proof.
  intros HI%reachable_Inv Hm Hpv Hpvc Hpod Hcm go wait w'. split.
  - destruct (inv_managers _ HI _ _ Hm) as ((a & -> & _) & _). done.
  - rewrite (Listen_eval _ _ _ Hm). cbn. rewrite Hpv, Hpvc, Hpod, Hcm.
    subst w' go wait. unfold set_trace. cbn. rewrite <- app_assoc. cbn.
    by destruct (waitOutcome cg _ _ _).
Qed.

(** C4, as the code has it.  In every world the process can reach: each
    batch start of a shared factory was launched on the stop channel of
    the manager that owns the factory, and [Listen] launches one; each run
    loop was launched for a filtered config-map informer on a channel that
    is the stop channel of no manager, and [AddConfigMapListener], when the
    handler is accepted, launches one on a channel it has just made. *)
Theorem stop_channels_of_goroutines (w : World) :
  reachable cg w →
  (∀ f ch, GoFactoryStart f ch ∈ trace w →
     ∃ p m, heap w !! p = Some m ∧ f = informerFactory m ∧ ch = stopCh m) ∧
  (∀ i ch, GoInformerRun i ch ∈ trace w →
     (∃ a c ns, i = FilteredConfigMapInformer a c ns
                      resyncPeriodConfigMapInformer [] None) ∧
     (∃ a, ch = ChanAt a) ∧
     (∀ p m, heap w !! p = Some m → stopCh m ≠ ch)) ∧
  (∀ im m r w', heap w !! im = Some m → Listen cg im w = Done r w' →
     GoFactoryStart (informerFactory m) (stopCh m) ∈ trace w') ∧
  (∀ im m c ns a u r, heap w !! im = Some m →
     let i := configMapInformer_for m w c ns in
     handlerError cg i (handlerFuncs a u r) (trace w) = None →
     ∃ w' ch, AddConfigMapListener cg im c ns a u r w = Done tt w' ∧
       GoInformerRun i ch ∈ trace w' ∧ ch ≠ stopCh m ∧
       ∃ k, ch = ChanAt (nextAddr w + k)).
Proof.
  intros HI%reachable_Inv. repeat split.
  - by apply inv_factory_starts.
  - by eapply inv_run_loops.
  - destruct (inv_run_loops _ HI _ _ H) as ((a & -> & _) & _). eauto.
  - intros p m. by eapply inv_run_loops.
  - intros im m r w' Hm H. rewrite (Listen_eval _ _ _ Hm) in H. cbn in H.
    destruct (pvSynced m), (pvcSynced m), (podSynced m), (configMapSynced m);
      try destruct (waitOutcome cg _ _ _); simplify_eq/=; set_solver.
  - intros im m c ns a u r Hm i Herr.
    destruct (AddConfigMapListener_effect im c ns a u r w m Hm)
      as (w' & Hrun & _ & Ht).
    fold i in Ht. rewrite Herr in Ht.
    destruct (inv_managers _ HI _ _ Hm) as ((b & Hb & Hlt) & _).
    exists w'. eexists. split; [done|]. split.
    { rewrite Ht. apply elem_of_app. right.
      apply elem_of_cons. right. apply elem_of_cons. by left. }
    rewrite Hb. split.
    + destruct (configMapInformer m); intros [= ?]; lia.
    + destruct (configMapInformer m);
        [exists 0; f_equal; lia | exists 1; f_equal; lia].
Qed.

(** C7, as the code has it.  The node, CSINode and volume-attachment
    listeners leave the five synced predicates of the manager as they were.
    The namespace listener sets [namespaceSynced], and the persistent-volume,
    persistent-volume-claim, pod and config-map listeners set theirs, each
    to the [HasSynced] of the informer in its slot.  [Listen] does not read
    [namespaceSynced]: it ends the same way whatever that field holds. *)
Theorem synced_predicates_by_listener (w : World) (im : nat) (m : InformerManager)
    (c : Client) (ns : string) (a u r : Callback) :
  heap w !! im = Some m →
  (∀ call,
     call ∈ [CallAddNodeListener im a u r; CallAddCSINodeListener im a u r;
             CallAddVolumeAttachmentListener im a u r] →
     ∃ w' m', exec cg call w = Done tt w' ∧ heap w' !! im = Some m' ∧
              synced_fields m' = synced_fields m) ∧
  (∃ w' m' i, AddNamespaceListener cg im a u r w = Done tt w' ∧
     heap w' !! im = Some m' ∧ namespaceInformer m' = Some i ∧
     synced_fields m' = [pvSynced m; pvcSynced m; podSynced m; configMapSynced m;
                         Some (HasSynced i)]) ∧
  (∃ w' m' i, AddPVListener cg im a u r w = Done tt w' ∧
     heap w' !! im = Some m' ∧ pvInformer m' = Some i ∧
     synced_fields m' = [Some (HasSynced i); pvcSynced m; podSynced m;
                         configMapSynced m; namespaceSynced m]) ∧
  (∃ w' m' i, AddPVCListener cg im a u r w = Done tt w' ∧
     heap w' !! im = Some m' ∧ pvcInformer m' = Some i ∧
     synced_fields m' = [pvSynced m; Some (HasSynced i); podSynced m;
                         configMapSynced m; namespaceSynced m]) ∧
  (∃ w' m' i, AddPodListener cg im a u r w = Done tt w' ∧
     heap w' !! im = Some m' ∧ podInformer m' = Some i ∧
     synced_fields m' = [pvSynced m; pvcSynced m; Some (HasSynced i);
                         configMapSynced m; namespaceSynced m]) ∧
  (∃ w' m' i, AddConfigMapListener cg im c ns a u r w = Done tt w' ∧
     heap w' !! im = Some m' ∧ configMapInformer m' = Some i ∧
     synced_fields m' = [pvSynced m; pvcSynced m; podSynced m;
                         Some (HasSynced i); namespaceSynced m]) ∧
  (∀ v, Listen cg im (poke_namespaceSynced im v w) =
        map_world (poke_namespaceSynced im v) (Listen cg im w)).
Proof.
  intros Hm. repeat split.
  - intros call Hin.
    repeat (apply elem_of_cons in Hin as [->|Hin]); [..|by apply not_elem_of_nil in Hin];
      cbn [exec].
    + destruct (AddNodeListener_effect im a u r w m Hm) as (w' & ? & ? & _); eauto.
    + destruct (AddCSINodeListener_effect im a u r w m Hm) as (w' & ? & ? & _); eauto.
    + destruct (AddVolumeAttachmentListener_effect im a u r w m Hm)
        as (w' & ? & ? & _); eauto.
  - destruct (AddNamespaceListener_effect im a u r w m Hm) as (w' & ? & ? & _).
    eexists _, _, _. eauto.
  - destruct (AddPVListener_effect im a u r w m Hm) as (w' & ? & ? & _).
    eexists _, _, _. eauto.
  - destruct (AddPVCListener_effect im a u r w m Hm) as (w' & ? & ? & _).
    eexists _, _, _. eauto.
  - destruct (AddPodListener_effect im a u r w m Hm) as (w' & ? & ? & _).
    eexists _, _, _. eauto.
  - destruct (AddConfigMapListener_effect im c ns a u r w m Hm) as (w' & ? & ? & _).
    eexists _, _, _. eauto.
  - intros v.
    assert (Hp : heap (poke_namespaceSynced im v w) !! im
                 = Some (set_namespaceSynced v m)).
    { unfold poke_namespaceSynced. rewrite Hm. cbn. by rewrite lookup_insert_eq. }
    rewrite (Listen_eval _ _ _ Hp), (Listen_eval _ _ _ Hm). cbn.
    assert (Hpoke : ∀ t, set_trace t (poke_namespaceSynced im v w)
                         = poke_namespaceSynced im v (set_trace t w)).
    { intros t. unfold poke_namespaceSynced. cbn. by rewrite Hm. }
    destruct (pvSynced m), (pvcSynced m), (podSynced m), (configMapSynced m);
      cbn; rewrite ?Hpoke; try done.
    unfold poke_namespaceSynced at 1. rewrite Hm. cbn.
    destruct (waitOutcome cg _ _ _); cbn; try done.
    all: f_equal; unfold poke_namespaceSynced; cbn; by rewrite Hm.
Qed.


(** C9, as the code has it.  A call that registers a listener on a manager
    returns, and returns nothing, whatever error [AddEventHandler] gave it:
    it has called [AddEventHandler] once, and it has written no log line. *)
Theorem registration_returns_silently (w : World) (im : nat) (m : InformerManager)
    (c : Call) :
  heap w !! im = Some m →
  registration im c = true →
  ∃ w' i h evs,
    exec cg c w = Done tt w' ∧
    trace w' = trace w ++ CalledAddEventHandler i h (handlerError cg i h (trace w)) :: evs ∧
    logs (trace w') = logs (trace w).
Proof.
  intros Hm Hreg.
  assert (Hlogs : ∀ t i h e evs,
            t = trace w ++ CalledAddEventHandler i h e :: evs →
            logs evs = [] → logs t = logs (trace w)).
  { intros t i h e evs -> Hevs. unfold logs in *. rewrite omap_app. cbn.
    fold (logs evs). unfold logs. rewrite Hevs. by rewrite app_nil_r. }
  destruct c; cbn in Hreg; try done; apply bool_decide_eq_true in Hreg as ->;
    cbn [exec].
  - destruct (AddNodeListener_effect im add update remove w m Hm) as (w' & ? & _ & Ht).
    eexists w', _, _, []. eauto.
  - destruct (AddCSINodeListener_effect im add update remove w m Hm) as (w' & ? & _ & Ht).
    eexists w', _, _, []. eauto.
  - destruct (AddPVCListener_effect im add update remove w m Hm) as (w' & ? & _ & Ht).
    eexists w', _, _, []. eauto.
  - destruct (AddPVListener_effect im add update remove w m Hm) as (w' & ? & _ & Ht).
    eexists w', _, _, []. eauto.
  - destruct (AddNamespaceListener_effect im add update remove w m Hm)
      as (w' & ? & _ & Ht).
    eexists w', _, _, []. eauto.
  - destruct (AddConfigMapListener_effect im client0 namespace add update remove w m Hm)
      as (w' & ? & _ & Ht).
    eexists w', _, _, _. split; [done|]. split; [exact Ht|].
    eapply Hlogs; [exact Ht|]. by destruct (handlerError cg _ _ _).
  - destruct (AddPodListener_effect im add update remove w m Hm) as (w' & ? & _ & Ht).
    eexists w', _, _, []. eauto.
  - destruct (AddVolumeAttachmentListener_effect im add update remove w m Hm)
      as (w' & ? & _ & Ht).
    eexists w', _, _, []. eauto.
Qed.

(** C10.  When [AddEventHandler] returns an error to
    [AddConfigMapListener], the call returns with [configMapSynced] set to
    the [HasSynced] of the config-map informer and with nothing in the
    history after the [AddEventHandler] call: no run loop was launched.
    The persistent-volume, persistent-volume-claim, pod and namespace
    listeners set their synced predicate the same way, whatever
    [AddEventHandler] returns. *)
Theorem failed_registration (w : World) (im : nat) (m : InformerManager)
    (c : Client) (ns : string) (a u r : Callback) (e : string) :
  heap w !! im = Some m →
  let h := handlerFuncs a u r in
  let i := configMapInformer_for m w c ns in
  handlerError cg i h (trace w) = Some e →
  (∃ w' m', AddConfigMapListener cg im c ns a u r w = Done tt w' ∧
     heap w' !! im = Some m' ∧ configMapInformer m' = Some i ∧
     configMapSynced m' = Some (HasSynced i) ∧
     trace w' = trace w ++ [CalledAddEventHandler i h (Some e)]) ∧
  (∃ w' m' j, AddPVListener cg im a u r w = Done tt w' ∧
     heap w' !! im = Some m' ∧ pvInformer m' = Some j ∧
     pvSynced m' = Some (HasSynced j) ∧
     trace w' = trace w ++ [CalledAddEventHandler j h (handlerError cg j h (trace w))]) ∧
  (∃ w' m' j, AddPVCListener cg im a u r w = Done tt w' ∧
     heap w' !! im = Some m' ∧ pvcInformer m' = Some j ∧
     pvcSynced m' = Some (HasSynced j) ∧
     trace w' = trace w ++ [CalledAddEventHandler j h (handlerError cg j h (trace w))]) ∧
  (∃ w' m' j, AddPodListener cg im a u r w = Done tt w' ∧
     heap w' !! im = Some m' ∧ podInformer m' = Some j ∧
     podSynced m' = Some (HasSynced j) ∧
     trace w' = trace w ++ [CalledAddEventHandler j h (handlerError cg j h (trace w))]) ∧
  (∃ w' m' j, AddNamespaceListener cg im a u r w = Done tt w' ∧
     heap w' !! im = Some m' ∧ namespaceInformer m' = Some j ∧
     namespaceSynced m' = Some (HasSynced j) ∧
     trace w' = trace w ++ [CalledAddEventHandler j h (handlerError cg j h (trace w))]).
Proof.
  intros Hm h i Herr. repeat split.
  - destruct (AddConfigMapListener_effect im c ns a u r w m Hm) as (w' & ? & ? & Ht).
    fold i h in Ht. rewrite Herr in Ht. eexists _, _. eauto.
  - destruct (AddPVListener_effect im a u r w m Hm) as (w' & ? & ? & Ht).
    eexists _, _, _. eauto.
  - destruct (AddPVCListener_effect im a u r w m Hm) as (w' & ? & ? & Ht).
    eexists _, _, _. eauto.
  - destruct (AddPodListener_effect im a u r w m Hm) as (w' & ? & ? & Ht).
    eexists _, _, _. eauto.
  - destruct (AddNamespaceListener_effect im a u r w m Hm) as (w' & ? & ? & Ht).
    eexists _, _, _. eauto.
Qed.

(* ===================================================================== *)
(** ** Further properties of the code *)
(* ===================================================================== *)

Lemma exec_updates c im w w' :
  Inv w → target c = Some im → exec cg c w = Done tt w' → updates im w w'.
Proof.
  intros HI Ht H.
  destruct c; cbn in Ht; simplify_eq; cbn [exec] in H;
    try (apply bind_Done in H as (? & ? & H & [_ ->]%ret_Done));
    eauto using AddNodeListener_updates, AddCSINodeListener_updates,
      AddPVCListener_updates, AddPVListener_updates, AddNamespaceListener_updates,
      AddConfigMapListener_updates, AddPodListener_updates,
      AddVolumeAttachmentListener_updates, GetPVLister_updates,
      GetPVCLister_updates, GetConfigMapLister_updates, GetPodLister_updates,
      Listen_updates.
Qed.

(** A method of one manager reads and writes that manager only: every
    other manager, the two package-level instances and the two mutexes are
    as before.  [NewInformer] leaves every manager that exists as it is. *)
Theorem calls_leave_other_managers_alone (w w' : World) (c : Call) :
  reachable cg w →
  exec cg c w = Done tt w' →
  match target c with
  | Some im =>
      (∀ p, p ≠ im → heap w' !! p = heap w !! p) ∧
      inClusterInformerManagerInstance w' = inClusterInformerManagerInstance w ∧
      supervisorInformerManagerInstance w' = supervisorInformerManagerInstance w ∧
      inClusterLocked w' = inClusterLocked w ∧
      supervisorLocked w' = supervisorLocked w
  | None => ∀ p m, heap w !! p = Some m → heap w' !! p = Some m
  end.
Proof.
  intros HI%reachable_Inv H. destruct (target c) as [im|] eqn:Ht.
  - destruct (exec_updates c im w w' HI Ht H)
      as (m & m' & evs & _ & Hh & _ & _ & _ & _ & _ & Hi & Hv & Hli & Hlv & _).
    repeat split; try done.
    intros p Hne. rewrite Hh. by rewrite lookup_insert_ne.
  - destruct c; try discriminate Ht. cbn [exec] in H.
    apply bind_Done in H as (q & w1 & H & [_ ->]%ret_Done).
    intros p m Hp. destruct (instance_of inClusterClnt w) as [q0|] eqn:Hq.
    + rewrite (NewInformer_existing _ _ _ _ HI Hq) in H. by simplify_eq.
    + rewrite (NewInformer_fresh _ _ _ HI Hq) in H. simplify_eq. cbn.
      pose proof (inv_heap_bound _ HI _ _ Hp).
      rewrite lookup_insert_ne; [done|lia].
Qed.

Lemma manager_grows_refl m : manager_grows m m.
Proof.
  repeat split; unfold slots, synced_fields; repeat constructor; by intros x.
Qed.

Lemma Forall2_keeps_trans {A} (l1 l2 l3 : list (option A)) :
  Forall2 keeps l1 l2 → Forall2 keeps l2 l3 → Forall2 keeps l1 l3.
Proof.
  intros H12. revert l3. induction H12 as [|x y l1 l2 Hxy _ IH]; intros l3 H23.
  - by inversion H23.
  - inversion H23 as [|y' z l2' l3' Hyz Hrest]; subst. constructor; [|by apply IH].
    intros v Hv. by apply Hyz, Hxy.
Qed.

Lemma manager_grows_trans m1 m2 m3 :
  manager_grows m1 m2 → manager_grows m2 m3 → manager_grows m1 m3.
Proof.
  intros (Hc & Hs & Hf & Hsl & Hsy) (Hc' & Hs' & Hf' & Hsl' & Hsy').
  split; [congruence|]. split; [congruence|]. split; [congruence|].
  split; eauto using Forall2_keeps_trans.
Qed.

Ltac solve_grows :=
  match goal with
  | Hok : manager_ok _ ?m |- manager_grows ?m _ =>
      destruct Hok as (_ & _ & _ & _ & (Hpv & Hpvc & Hpod & Hcm & Hns));
      unfold manager_grows, slots, synced_fields, keeps,
        factoryInformer_for, configMapInformer_for;
      cbn; repeat split; repeat constructor; intros x Hx;
      try done;
      repeat match goal with
             | H : ∀ s, ?f m = Some s → _, Hx : ?f m = Some _ |- _ =>
                 destruct (H _ Hx) as (? & ? & ?); clear H
             end;
      repeat match goal with
             | E : ?f m = Some _ |- context [?f m] => rewrite E
             end;
      simplify_eq; try done
  end.

Lemma registration_grows c im w w' m :
  Inv w → registration im c = true → heap w !! im = Some m →
  exec cg c w = Done tt w' →
  ∃ m', heap w' !! im = Some m' ∧ manager_grows m m'.
Proof.
  intros HI Hreg Hm H.
  pose proof (inv_managers _ HI _ _ Hm) as Hok.
  destruct c; cbn in Hreg; try done; apply bool_decide_eq_true in Hreg as ->;
    cbn [exec] in H.
  - destruct (AddNodeListener_effect im add update remove w m Hm) as (w0 & H0 & Hh & _).
    rewrite H in H0. simplify_eq. eexists. split; [done|]. solve_grows.
  - destruct (AddCSINodeListener_effect im add update remove w m Hm) as (w0 & H0 & Hh & _).
    rewrite H in H0. simplify_eq. eexists. split; [done|]. solve_grows.
  - destruct (AddPVCListener_effect im add update remove w m Hm) as (w0 & H0 & Hh & _).
    rewrite H in H0. simplify_eq. eexists. split; [done|]. solve_grows.
  - destruct (AddPVListener_effect im add update remove w m Hm) as (w0 & H0 & Hh & _).
    rewrite H in H0. simplify_eq. eexists. split; [done|]. solve_grows.
  - destruct (AddNamespaceListener_effect im add update remove w m Hm)
      as (w0 & H0 & Hh & _).
    rewrite H in H0. simplify_eq. eexists. split; [done|]. solve_grows.
  - destruct (AddConfigMapListener_effect im client0 namespace add update remove w m Hm)
      as (w0 & H0 & Hh & _).
    rewrite H in H0. simplify_eq. eexists. split; [done|]. solve_grows.
  - destruct (AddPodListener_effect im add update remove w m Hm) as (w0 & H0 & Hh & _).
    rewrite H in H0. simplify_eq. eexists. split; [done|]. solve_grows.
  - destruct (AddVolumeAttachmentListener_effect im add update remove w m Hm)
      as (w0 & H0 & Hh & _).
    rewrite H in H0. simplify_eq. eexists. split; [done|]. solve_grows.
Qed.

Lemma readonly_call c w w' :
  registration (default 0 (target c)) c = false → is_Some (target c) →
  exec cg c w = Done tt w' → heap w' = heap w.
Proof.
  intros Hreg [im Ht] H.
  destruct c; cbn in Ht, Hreg; simplify_eq;
    try (rewrite bool_decide_eq_false in Hreg; done);
    inv_op H; done.
Qed.

Lemma exec_grows c w w' p m :
  Inv w → exec cg c w = Done tt w' → heap w !! p = Some m →
  ∃ m', heap w' !! p = Some m' ∧ manager_grows m m'.
Proof.
  intros HI H Hp.
  destruct (target c) as [im|] eqn:Ht.
  - destruct (decide (p = im)) as [->|Hne].
    + destruct (registration im c) eqn:Hreg.
      * by eapply registration_grows.
      * rewrite (readonly_call c w w'); [| by rewrite Ht | by rewrite Ht | done].
        eauto using manager_grows_refl.
    + destruct (exec_updates c im w w' HI Ht H) as (m0 & m' & evs & _ & Hh & _).
      rewrite Hh, lookup_insert_ne; [|done]. eauto using manager_grows_refl.
  - destruct c; try discriminate Ht. cbn [exec] in H.
    apply bind_Done in H as (q & w1 & H & [_ ->]%ret_Done).
    exists m. split; [|apply manager_grows_refl].
    destruct (instance_of inClusterClnt w) as [q0|] eqn:Hq.
    + rewrite (NewInformer_existing _ _ _ _ HI Hq) in H. by simplify_eq.
    + rewrite (NewInformer_fresh _ _ _ HI Hq) in H. simplify_eq. cbn.
      pose proof (inv_heap_bound _ HI _ _ Hp).
      rewrite lookup_insert_ne; [done|lia].
Qed.

(** Nothing is ever taken back.  Over any further calls a manager stays
    where it is, with the client, the stop channel and the factory it was
    built with, and every informer slot and every synced predicate that was
    set keeps the value it had: each informer is built at most once. *)
Theorem managers_only_grow (w w' : World) (p : nat) (m : InformerManager) :
  reachable cg w →
  reachable_from cg w w' →
  heap w !! p = Some m →
  ∃ m', heap w' !! p = Some m' ∧
    client m' = client m ∧ stopCh m' = stopCh m ∧
    informerFactory m' = informerFactory m ∧
    Forall2 keeps (slots m) (slots m') ∧
    Forall2 keeps (synced_fields m) (synced_fields m').
Proof.
  intros HI%reachable_Inv [cs Hrun]. revert w m HI Hrun.
  induction cs as [|c cs IH]; intros w m HI Hrun Hp.
  - apply ret_Done in Hrun as [_ ->]. exists m. split; [done|].
    apply manager_grows_refl.
  - cbn [run] in Hrun. apply bind_Done in Hrun as ([] & w1 & H1 & H2).
    destruct (exec_Inv _ _ _ HI H1) as [HI1 _].
    destruct (exec_grows _ _ _ _ _ HI H1 Hp) as (m1 & Hp1 & Hg1).
    destruct (IH _ _ HI1 H2 Hp1) as (m' & Hp' & Hg').
    exists m'. split; [done|]. by apply (manager_grows_trans m m1 m').
Qed.

Lemma events_since_app w w' evs :
  trace w' = trace w ++ evs → events_since w w' = evs.
Proof. intros Ht. unfold events_since. by rewrite Ht, drop_app_length. Qed.


(** The persistent-volume, persistent-volume-claim and pod listers read
    the informer the listener of the same kind is attached to: when the slot
    of the kind is set, the lister is on the informer in the slot.  Getting
    a lister changes no manager and adds nothing to the history. *)
Theorem listers_read_the_listeners_informer
    (w : World) (im : nat) (m : InformerManager) :
  reachable cg w →
  heap w !! im = Some m →
  (∃ w', GetPVLister im w =
           Done (ListerOn (FactoryInformer (informerFactory m) PersistentVolumes)) w' ∧
         heap w' = heap w ∧ trace w' = trace w ∧
         ∀ i, pvInformer m = Some i →
              GetPVLister im w = Done (ListerOn i) w') ∧
  (∃ w', GetPVCLister im w =
           Done (ListerOn (FactoryInformer (informerFactory m) PersistentVolumeClaims)) w' ∧
         heap w' = heap w ∧ trace w' = trace w ∧
         ∀ i, pvcInformer m = Some i →
              GetPVCLister im w = Done (ListerOn i) w') ∧
  (∃ w', GetPodLister im w =
           Done (ListerOn (FactoryInformer (informerFactory m) Pods)) w' ∧
         heap w' = heap w ∧ trace w' = trace w ∧
         ∀ i, podInformer m = Some i →
              GetPodLister im w = Done (ListerOn i) w').
Proof.
  intros HI%reachable_Inv Hm.
  destruct (inv_managers _ HI _ _ Hm)
    as (_ & _ & _ & (_ & Hspvc & Hspv & _ & Hspod & _ & _) & _).
  assert (Hl : ∀ k, ∃ w',
            FactoryLister (informerFactory m) k w =
              Done (ListerOn (FactoryInformer (informerFactory m) k)) w' ∧
            heap w' = heap w ∧ trace w' = trace w).
  { intros k. unfold FactoryLister, Informer, mbind, M_bind, mret, M_ret.
    case_decide; eauto. }
  repeat split.
  - destruct (Hl PersistentVolumes) as (w' & H & Hh & Ht). exists w'.
    unfold GetPVLister, mbind, M_bind, load. rewrite Hm.
    repeat split; try done. by intros i ->%Hspv.
  - destruct (Hl PersistentVolumeClaims) as (w' & H & Hh & Ht). exists w'.
    unfold GetPVCLister, mbind, M_bind, load. rewrite Hm.
    repeat split; try done. by intros i ->%Hspvc.
  - destruct (Hl Pods) as (w' & H & Hh & Ht). exists w'.
    unfold GetPodLister, mbind, M_bind, load. rewrite Hm.
    repeat split; try done. by intros i ->%Hspod.
Qed.

Lemma handler_calls_app t1 t2 :
  handler_calls (t1 ++ t2) = handler_calls t1 ++ handler_calls t2.
Proof. unfold handler_calls. apply omap_app. Qed.

Ltac twice eff1 eff2 :=
  match goal with
  | Hm : heap ?w !! ?im = Some ?m |- _ =>
      destruct (eff1 Hm) as (w1 & Hrun1 & Hm1 & Ht1);
      destruct (eff2 w1 _ Hm1) as (w2 & Hrun2 & _ & Ht2);
      exists w1, w2; eexists; split; [exact Hrun1|]; split; [exact Hrun2|];
      rewrite Ht1 in Ht2; rewrite <- app_assoc in Ht2;
      rewrite (events_since_app _ _ _ Ht2);
      unfold factoryInformer_for, configMapInformer_for; cbn;
      rewrite ?handler_calls_app; cbn;
      repeat match goal with
             | |- context [handlerError ?a ?b ?c ?d] =>
                 destruct (handlerError a b c d); cbn
             end;
      reflexivity
  end.

(** Registering twice with the same function adds to what was registered:
    both calls return, and the second attaches its callbacks to the informer
    the first one attached its own to.  For the config-map listener this
    is so even when the second call names another client or namespace. *)
Theorem registering_twice_is_cumulative (w : World) (im : nat)
    (m : InformerManager) (c1 c2 : Call) (h1 h2 : ResourceEventHandlerFuncs) :
  heap w !! im = Some m →
  registration im c1 = true →
  same_listener c1 c2 = true →
  callbacks c1 = Some h1 →
  callbacks c2 = Some h2 →
  ∃ w1 w2 i,
    exec cg c1 w = Done tt w1 ∧
    exec cg c2 w1 = Done tt w2 ∧
    handler_calls (events_since w w2) = [(i, h1); (i, h2)].
Proof.
  intros Hm Hreg Hsame Hc1 Hc2.
  destruct c1; cbn in Hreg; try done; apply bool_decide_eq_true in Hreg as ->;
    destruct c2; cbn in Hsame; try done; apply bool_decide_eq_true in Hsame as <-;
    cbn in Hc1, Hc2; simplify_eq; cbn [exec].
  - twice (AddNodeListener_effect im add update remove w m)
          (fun w' m' => AddNodeListener_effect im add0 update0 remove0 w' m').
  - twice (AddCSINodeListener_effect im add update remove w m)
          (fun w' m' => AddCSINodeListener_effect im add0 update0 remove0 w' m').
  - twice (AddPVCListener_effect im add update remove w m)
          (fun w' m' => AddPVCListener_effect im add0 update0 remove0 w' m').
  - twice (AddPVListener_effect im add update remove w m)
          (fun w' m' => AddPVListener_effect im add0 update0 remove0 w' m').
  - twice (AddNamespaceListener_effect im add update remove w m)
          (fun w' m' => AddNamespaceListener_effect im add0 update0 remove0 w' m').
  - twice (AddConfigMapListener_effect im client0 namespace add update remove w m)
          (fun w' m' => AddConfigMapListener_effect im client1 namespace0
                          add0 update0 remove0 w' m').
  - twice (AddPodListener_effect im add update remove w m)
          (fun w' m' => AddPodListener_effect im add0 update0 remove0 w' m').
  - twice (AddVolumeAttachmentListener_effect im add update remove w m)
          (fun w' m' => AddVolumeAttachmentListener_effect im add0 update0 remove0 w' m').
Qed.

Ltac use_slots Hslots :=
  destruct Hslots as (Hsn & Hspvc & Hspv & Hsns & Hspod & Hsva & Hscm);
  repeat match goal with
         | E : nodeInformer _ = Some _ |- _ =>
             destruct (Hsn _ E) as [-> | ->]; clear Hsn
         | E : pvcInformer _ = Some _ |- _ => pose proof (Hspvc _ E) as ->; clear Hspvc
         | E : pvInformer _ = Some _ |- _ => pose proof (Hspv _ E) as ->; clear Hspv
         | E : namespaceInformer _ = Some _ |- _ =>
             pose proof (Hsns _ E) as ->; clear Hsns
         | E : podInformer _ = Some _ |- _ => pose proof (Hspod _ E) as ->; clear Hspod
         | E : volumeAttachmentInformer _ = Some _ |- _ =>
             pose proof (Hsva _ E) as ->; clear Hsva
         | E : configMapInformer _ = Some _ |- _ =>
             destruct (Hscm _ E) as (? & ? & ? & ->); clear Hscm
         end.

Ltac solve_events :=
  first
    [ by (exists []; cbn; rewrite app_nil_r; repeat split; try lia; by left)
    | eexists; split; [cbn; rewrite <- ?app_assoc; reflexivity|];
      cbn; split; [lia|]; split; [reflexivity|];
      first [ by left
            | right; eexists _, _; split; [reflexivity|]; split; [reflexivity|];
              cbn; lia ] ].

Lemma target_call_events c im w w' :
  Inv w → target c = Some im → exec cg c w = Done tt w' →
  ∃ evs, trace w' = trace w ++ evs ∧
    (nextAddr w ≤ nextAddr w')%nat ∧
    logs evs = [] ∧
    one_run_loop_at_most (nextAddr w) (nextAddr w') evs.
Proof.
  intros HI Ht H.
  assert (∃ m, heap w !! im = Some m) as [m Hm].
  { destruct (exec_updates c im w w' HI Ht H) as (m & _ & _ & Hm & _). eauto. }
  destruct (inv_managers _ HI _ _ Hm) as (_ & _ & _ & Hslots & _).
  destruct c; cbn in Ht; simplify_eq; inv_op H; use_slots Hslots; solve_events.
Qed.

Lemma NewInformer_cases c b w p w' :
  Inv w → NewInformer c b w = Done p w' →
  (instance_of b w = Some p ∧ w' = w) ∨
  (instance_of b w = None ∧ w' = world_with_new_manager c b w).
Proof.
  intros HI H. destruct (instance_of b w) as [q|] eqn:Hq.
  - rewrite (NewInformer_existing c b w q HI Hq) in H. simplify_eq. by left.
  - rewrite (NewInformer_fresh c b w HI Hq) in H. simplify_eq. by right.
Qed.

Lemma exec_run_loops_ok c w w' :
  Inv w → run_loops_ok w → exec cg c w = Done tt w' → run_loops_ok w'.
Proof.
  intros HI (Hacc & Hnd & Hlt) H.
  destruct (target c) as [im|] eqn:Ht.
  - destruct (target_call_events c im w w' HI Ht H)
      as (evs & Htr & Hle & _ & [[Hr Ha] | (i & a & Hr & Ha & Hlo)]);
      unfold run_loops_ok; rewrite Htr; unfold run_loops, accepted_on_filtered in *;
      rewrite !omap_app, ?Hr, ?Ha, ?app_nil_r.
    + split; [done|]. split; [done|].
      intros ch (b & -> & Hb)%Hlt. exists b. split; [done|lia].
    + rewrite !fmap_app. cbn. split; [by rewrite Hacc|]. split.
      * apply NoDup_app. split; [done|]. split; [|apply NoDup_singleton].
        intros ch (b & -> & Hb)%Hlt [= ->]%list_elem_of_singleton. lia.
      * intros ch [(b & -> & Hb)%Hlt | ->%list_elem_of_singleton]%elem_of_app.
        -- exists b. split; [done|lia].
        -- exists a. split; [done|lia].
  - destruct c; try discriminate Ht. cbn [exec] in H.
    apply bind_Done in H as (q & w1 & H & [_ ->]%ret_Done).
    destruct (NewInformer_cases _ _ _ _ _ HI H) as [[_ ->] | [_ ->]]; [done|].
    unfold run_loops_ok, run_loops, accepted_on_filtered in *. cbn.
    rewrite !omap_app. cbn. rewrite !app_nil_r.
    split; [done|]. split; [done|].
    intros ch (b & -> & Hb)%Hlt. exists b. split; [done|lia].
Qed.

(** Every run loop in the history belongs to one accepted
    [AddEventHandler] call on a config-map informer and the other way
    round, in the same order: a registration whose handler is accepted
    launches one more run loop of the manager's config-map informer, a
    refused one launches none, and no other call launches any.  No two run
    loops were given the same stop channel. *)
Theorem one_run_loop_per_accepted_registration (w : World) :
  reachable cg w →
  (run_loops (trace w)).*1 = accepted_on_filtered (trace w) ∧
  NoDup (run_loops (trace w)).*2 ∧
  (∀ ch, ch ∈ (run_loops (trace w)).*2 → ∃ a, ch = ChanAt a ∧ (a < nextAddr w)%nat).
Proof.
  intros [cs Hrun].
  assert (∀ w0, Inv w0 → run_loops_ok w0 → run cg cs w0 = Done tt w → run_loops_ok w)
    as Hind.
  { clear Hrun. induction cs as [|c cs IH]; intros w0 HI Hok Hrun.
    - apply ret_Done in Hrun as [_ ->]. done.
    - cbn [run] in Hrun. apply bind_Done in Hrun as ([] & w1 & H1 & H2).
      destruct (exec_Inv _ _ _ HI H1) as [HI1 _].
      eapply IH; [exact HI1| |exact H2]. exact (exec_run_loops_ok _ _ _ HI Hok H1). }
  apply (Hind init_world init_Inv); [|done].
  repeat split; cbn; [constructor|]. intros ch Hin. by apply not_elem_of_nil in Hin.
Qed.

Lemma creation_notice_inj b1 b2 : creation_notice b1 = creation_notice b2 → b1 = b2.
Proof. by destruct b1, b2. Qed.

Lemma exec_logs_ok c w w' :
  Inv w → logs_ok w → exec cg c w = Done tt w' → logs_ok w'.
Proof.
  intros HI (Hnd & Hiff) H.
  destruct (target c) as [im|] eqn:Ht.
  - destruct (target_call_events c im w w' HI Ht H) as (evs & Htr & _ & Hl & _).
    destruct (exec_updates c im w w' HI Ht H)
      as (_ & _ & _ & _ & _ & _ & _ & _ & _ & _ & Hi & Hv & _).
    assert (Hlogs : logs (trace w') = logs (trace w)).
    { rewrite Htr. unfold logs in *. by rewrite omap_app, Hl, app_nil_r. }
    unfold logs_ok. rewrite Hlogs. split; [done|].
    intros msg. rewrite Hiff. split; intros (b & -> & Hb); exists b; split; try done;
      destruct b; cbn in *; congruence.
  - destruct c; try discriminate Ht. cbn [exec] in H.
    apply bind_Done in H as (q & w1 & H & [_ ->]%ret_Done).
    destruct (NewInformer_cases _ _ _ _ _ HI H) as [[_ ->] | [Hnone ->]]; [done|].
    assert (Hnew : creation_notice inClusterClnt ∉ logs (trace w)).
    { intros (b & ->%creation_notice_inj & Hb)%Hiff. rewrite Hnone in Hb.
      by destruct Hb. }
    unfold logs_ok, logs in *. cbn [trace world_with_new_manager].
    rewrite omap_app. cbn. split.
    + apply NoDup_app. split; [done|]. split; [|apply NoDup_singleton].
      intros msg Hin ->%list_elem_of_singleton. done.
    + intros msg. rewrite elem_of_app, list_elem_of_singleton, Hiff. split.
      * intros [(b & -> & Hb) | ->].
        -- exists b. split; [done|]. destruct b, inClusterClnt; cbn in *; eauto.
        -- exists inClusterClnt. split; [done|]. destruct inClusterClnt; cbn; eauto.
      * intros (b & -> & Hb).
        destruct (decide (b = inClusterClnt)) as [->|Hne]; [by right|].
        left. exists b. split; [done|].
        destruct b, inClusterClnt; cbn in *; done.
Qed.

(** The creation of a manager is logged once: the log lines of the history
    are the creation notices of the identities that have their instance,
    one each, and nothing else is ever logged. *)
Theorem creation_is_logged_once (w : World) :
  reachable cg w →
  NoDup (logs (trace w)) ∧
  (∀ msg, msg ∈ logs (trace w) ↔
          ∃ b, msg = creation_notice b ∧ is_Some (instance_of b w)).
Proof.
  intros [cs Hrun].
  assert (∀ w0, Inv w0 → logs_ok w0 → run cg cs w0 = Done tt w → logs_ok w) as Hind.
  { clear Hrun. induction cs as [|c cs IH]; intros w0 HI Hok Hrun.
    - apply ret_Done in Hrun as [_ ->]. done.
    - cbn [run] in Hrun. apply bind_Done in Hrun as ([] & w1 & H1 & H2).
      destruct (exec_Inv _ _ _ HI H1) as [HI1 _].
      eapply IH; [exact HI1| |exact H2]. exact (exec_logs_ok _ _ _ HI Hok H1). }
  apply (Hind init_world init_Inv); [|done].
  split; cbn; [constructor|]. intros msg. split.
  - intros Hin. by apply not_elem_of_nil in Hin.
  - intros (b & _ & Hb). destruct b; cbn in Hb; by destruct Hb.
Qed.

Lemma exec_built c w w' :
  Inv w →
  (∀ p m, heap w !! p = Some m → built_by_NewInformer p m) →
  exec cg c w = Done tt w' →
  ∀ p m, heap w' !! p = Some m → built_by_NewInformer p m.
Proof.
  intros HI Hb H p m' Hp.
  destruct (target c) as [im|] eqn:Ht.
  - destruct (exec_updates c im w w' HI Ht H)
      as (m0 & m1 & evs & Hm0 & Hh & Hc & Hs & Hf & _).
    rewrite Hh in Hp. destruct (decide (p = im)) as [->|Hne].
    + rewrite lookup_insert_eq in Hp. simplify_eq.
      destruct (Hb _ _ Hm0) as (a & -> & Ha & Hfa). exists a.
      by rewrite Hs, Hf, Hc.
    + rewrite lookup_insert_ne in Hp; [|done]. eauto.
  - destruct c; try discriminate Ht. cbn [exec] in H.
    apply bind_Done in H as (q & w1 & H & [_ ->]%ret_Done).
    destruct (NewInformer_cases _ _ _ _ _ HI H) as [[_ ->] | [_ ->]]; [eauto|].
    cbn in Hp. destruct (decide (p = S (S (nextAddr w)))) as [->|Hne].
    + rewrite lookup_insert_eq in Hp. simplify_eq. by exists (nextAddr w).
    + rewrite lookup_insert_ne in Hp; [|done]. eauto.
Qed.

(** Each manager has a stop channel and a shared factory of its own, and
    the factory is on the client the manager was created with: two
    managers never share a stop channel or a factory. *)
Theorem managers_share_nothing (w : World) (p q : nat) (mp mq : InformerManager) :
  reachable cg w →
  heap w !! p = Some mp →
  heap w !! q = Some mq →
  factoryClient (informerFactory mp) = client mp ∧
  (p ≠ q → stopCh mp ≠ stopCh mq ∧ informerFactory mp ≠ informerFactory mq).
Proof.
  intros [cs Hrun] Hp Hq.
  assert (∀ w0, Inv w0 →
            (∀ p m, heap w0 !! p = Some m → built_by_NewInformer p m) →
            run cg cs w0 = Done tt w →
            ∀ p m, heap w !! p = Some m → built_by_NewInformer p m) as Hind.
  { clear Hrun Hp Hq. induction cs as [|c cs IH]; intros w0 HI Hb Hrun.
    - apply ret_Done in Hrun as [_ ->]. done.
    - cbn [run] in Hrun. apply bind_Done in Hrun as ([] & w1 & H1 & H2).
      destruct (exec_Inv _ _ _ HI H1) as [HI1 _].
      eapply IH; [exact HI1| |exact H2]. exact (exec_built _ _ _ HI Hb H1). }
  assert (Hb : ∀ p m, heap w !! p = Some m → built_by_NewInformer p m).
  { apply (Hind init_world init_Inv); [|done]. intros p0 m0 H0. cbn in H0.
    by rewrite lookup_empty in H0. }
  destruct (Hb _ _ Hp) as (a & -> & Ha & Hfa).
  destruct (Hb _ _ Hq) as (b & -> & Hb' & Hfb).
  split; [by rewrite Hfa|].
  intros Hne. rewrite Ha, Hb', Hfa, Hfb. cbn.
  split; intros [= ?]; apply Hne; congruence.
Qed.

(** The two identities have a mutex each.  [NewInformer] waits for ever
    when the mutex of its identity is held; when that mutex is free it
    returns, whether or not the other one is held; and when it returns it
    has released what it took. *)
Theorem NewInformer_locks (w : World) (c : Client) (b : bool) :
  (locked (lock_of b) w = true → NewInformer c b w = Blocks) ∧
  (locked (lock_of b) w = false → ∃ p w', NewInformer c b w = Done p w') ∧
  (∀ p w', NewInformer c b w = Done p w' →
     inClusterLocked w' = inClusterLocked w ∧
     supervisorLocked w' = supervisorLocked w ∧
     locked (lock_of b) w' = false).
Proof.
  split; [|split].
  - intros Hl. unfold NewInformer, mbind, M_bind, Lock.
    destruct b; cbn in *; by rewrite Hl.
  - intros Hl.
    unfold NewInformer, mbind, M_bind, mret, M_ret, Lock, Unlock,
      read_inClusterInformerManagerInstance,
      read_supervisorInformerManagerInstance.
    destruct w; destruct b; cbn in *; subst; cbn;
      match goal with
      | |- context [match ?x with Some _ => _ | None => _ end] => destruct x
      end; cbn; eauto.
  - intros p w' H. destruct b; inv_op H;
      repeat split; cbn; try done;
      repeat match goal with
             | H : locked _ _ = _ |- _ => cbn in H
             end; congruence.
Qed.

End Properties.









(* ===================================================================== *)
(** ** The claims on sample runs *)
(* ===================================================================== *)

Lemma reachable_world_after cg cs w :
  run cg cs init_world = Done tt w → reachable cg (world_after cg cs).
Proof. intros H. exists cs. unfold world_after. by rewrite H. Qed.

(** C1 at the start of a process: the first call for the in-cluster
    identity creates the manager at address 2 for client 7; a second call
    with client 8 returns it again and leaves the world alone; a call for
    the supervisor identity returns another instance. *)
Lemma NewInformer_singleton_witness :
  reachable cg_accepting init_world ∧
  ∃ p w1, NewInformer 7 true init_world = Done p w1 ∧
    heap w1 !! p = Some (fresh_manager 7 0) ∧
    NewInformer 8 true w1 = Done p w1 ∧
    ∀ q w3, NewInformer 8 false w1 = Done q w3 → q ≠ p.
Proof.
  assert (Hr : reachable cg_accepting init_world) by (by exists []).
  split; [exact Hr|].
  destruct (NewInformer_singleton cg_accepting init_world 7 true Hr)
    as (p & w1 & H1 & H2 & H3 & H4).
  assert (Hr1 : reachable_from cg_accepting w1 w1) by (by exists []).
  exists p, w1. split; [exact H1|]. split; [by apply H2|].
  split; [apply (H3 w1 8 Hr1)|].
  intros q w3. apply (H4 w1 8 q w3 Hr1).
Defined.

(** C2 on a manager with only the persistent-volume listener registered,
    in an environment where no wait ever ends. *)
Lemma Listen_skips_barrier_witness :
  let w := world_after cg_stuck register_pv_only in
  let m := manager_at w sample_manager in
  heap w !! sample_manager = Some m ∧ pvcSynced m = None ∧
  Listen cg_stuck sample_manager w =
    Done (ChanAt 0) (set_trace (trace w ++ [GoFactoryStart sample_factory (ChanAt 0)]) w).
Proof.
  intros w m.
  assert (Hm : heap w !! sample_manager = Some m) by (vm_compute; reflexivity).
  split; [exact Hm|]. split; [reflexivity|].
  apply (Listen_skips_barrier cg_stuck w sample_manager m Hm).
  right; left; reflexivity.
Defined.

(** C3 on a manager with the four listeners registered: when every wait
    is cancelled [Listen] returns the nil channel, when every wait ends
    synchronized it returns the stop channel at address 0. *)
Lemma Listen_barrier_witness :
  let pv := HasSynced (FactoryInformer sample_factory PersistentVolumes) in
  let pvc := HasSynced (FactoryInformer sample_factory PersistentVolumeClaims) in
  let pod := HasSynced (FactoryInformer sample_factory Pods) in
  let cm := HasSynced (FilteredConfigMapInformer 3 7 "vmware-system-csi"
                         resyncPeriodConfigMapInformer [] None) in
  let events := [GoFactoryStart sample_factory (ChanAt 0);
                 CalledWaitForCacheSync (ChanAt 0) [pv; pvc; pod; cm]] in
  let wr := world_after cg_refusing register_barrier_kinds in
  let wa := world_after cg_accepting register_barrier_kinds in
  (reachable cg_refusing wr ∧
   synced_fields (manager_at wr sample_manager) = [Some pv; Some pvc; Some pod; Some cm; None] ∧
   Listen cg_refusing sample_manager wr = Done NilChan (set_trace (trace wr ++ events) wr)) ∧
  (reachable cg_accepting wa ∧
   synced_fields (manager_at wa sample_manager) = [Some pv; Some pvc; Some pod; Some cm; None] ∧
   Listen cg_accepting sample_manager wa = Done (ChanAt 0) (set_trace (trace wa ++ events) wa)).
Proof.
  intros pv pvc pod cm events wr wa.
  assert (Hr : reachable cg_refusing wr)
    by (apply reachable_world_after with (w := wr); vm_compute; reflexivity).
  assert (Ha : reachable cg_accepting wa)
    by (apply reachable_world_after with (w := wa); vm_compute; reflexivity).
  assert (Hmr : heap wr !! sample_manager = Some (manager_at wr sample_manager))
    by (vm_compute; reflexivity).
  assert (Hma : heap wa !! sample_manager = Some (manager_at wa sample_manager))
    by (vm_compute; reflexivity).
  split.
  - split; [exact Hr|]. split; [reflexivity|].
    exact (proj2 (Listen_barrier cg_refusing wr sample_manager _ pv pvc pod cm
                    Hr Hmr eq_refl eq_refl eq_refl eq_refl)).
  - split; [exact Ha|]. split; [reflexivity|].
    exact (proj2 (Listen_barrier cg_accepting wa sample_manager _ pv pvc pod cm
                    Ha Hma eq_refl eq_refl eq_refl eq_refl)).
Defined.

(** C4 as the specification states it fails: after one config-map
    registration the run loop of the manager's config-map informer was
    launched on the channel at address 4, and the manager's stop channel is
    the one at address 0. *)
Lemma config_map_run_loop_has_its_own_channel :
  let w := world_after cg_accepting register_config_map in
  ¬ (∀ m i ch,
       heap w !! sample_manager = Some m →
       configMapInformer m = Some i →
       GoInformerRun i ch ∈ trace w →
       ch = stopCh m).
Proof.
  intros w H.
  set (filtered := FilteredConfigMapInformer 3 7 "vmware-system-csi"
                     resyncPeriodConfigMapInformer [] None).
  assert (Hm : heap w !! sample_manager = Some (manager_at w sample_manager))
    by (vm_compute; reflexivity).
  assert (Hi : configMapInformer (manager_at w sample_manager) = Some filtered)
    by (vm_compute; reflexivity).
  assert (Hs : stopCh (manager_at w sample_manager) = ChanAt 0)
    by (vm_compute; reflexivity).
  assert (Ht : trace w =
            [LogInfo (creation_notice true);
             CalledAddEventHandler filtered (handlerFuncs 1 2 3) None;
             GoInformerRun filtered (ChanAt 4)])
    by (vm_compute; reflexivity).
  assert (Hin : GoInformerRun filtered (ChanAt 4) ∈ trace w).
  { rewrite Ht. apply elem_of_cons. right. apply elem_of_cons. right.
    apply elem_of_cons. left. reflexivity. }
  specialize (H _ _ _ Hm Hi Hin). rewrite Hs in H. discriminate H.
Qed.

(** The amended C4 after a config-map registration and a [Listen]: the
    batch start is on the manager's stop channel, the run loop is on the
    channel at address 4, which is the stop channel of no manager. *)
Lemma stop_channels_of_goroutines_witness :
  let w := world_after cg_accepting (register_config_map ++ [CallListen sample_manager]) in
  let filtered := FilteredConfigMapInformer 3 7 "vmware-system-csi"
                    resyncPeriodConfigMapInformer [] None in
  reachable cg_accepting w ∧
  GoFactoryStart sample_factory (ChanAt 0) ∈ trace w ∧
  GoInformerRun filtered (ChanAt 4) ∈ trace w ∧
  (∃ p m, heap w !! p = Some m ∧ sample_factory = informerFactory m ∧
          ChanAt 0 = stopCh m) ∧
  (∀ p m, heap w !! p = Some m → stopCh m ≠ ChanAt 4).
Proof.
  intros w filtered.
  assert (Hr : reachable cg_accepting w)
    by (apply reachable_world_after with (w := w); vm_compute; reflexivity).
  assert (Ht : trace w =
            [LogInfo (creation_notice true);
             CalledAddEventHandler filtered (handlerFuncs 1 2 3) None;
             GoInformerRun filtered (ChanAt 4);
             GoFactoryStart sample_factory (ChanAt 0)])
    by (vm_compute; reflexivity).
  assert (Hgo : GoFactoryStart sample_factory (ChanAt 0) ∈ trace w).
  { rewrite Ht. do 3 (apply elem_of_cons; right). apply elem_of_cons. left.
    reflexivity. }
  assert (Hrun : GoInformerRun filtered (ChanAt 4) ∈ trace w).
  { rewrite Ht. do 2 (apply elem_of_cons; right). apply elem_of_cons. left.
    reflexivity. }
  destruct (stop_channels_of_goroutines cg_accepting w Hr) as (H1 & H2 & _).
  split; [exact Hr|]. split; [exact Hgo|]. split; [exact Hrun|].
  split; [exact (H1 _ _ Hgo)|].
  exact (proj2 (proj2 (H2 _ _ Hrun))).
Defined.

(** C5 on the code: a node listener and then a CSINode listener on one
    manager.  Both handlers were attached to the factory's [Nodes]
    informer, which is the only informer the factory was asked for; the
    manager holds that one informer. *)
Theorem csinode_listener_attaches_to_node_informer :
  let w := world_after cg_accepting register_node_then_csinode in
  let nodes := FactoryInformer sample_factory Nodes in
  run cg_accepting register_node_then_csinode init_world = Done tt w ∧
  nodeInformer (manager_at w sample_manager) = Some nodes ∧
  events_since (world_after cg_accepting create_manager) w =
    [CalledAddEventHandler nodes (handlerFuncs 1 2 3) None;
     CalledAddEventHandler nodes (handlerFuncs 4 5 6) None] ∧
  factoryInformers w = [nodes] ∧
  FactoryInformer sample_factory CSINodes ∉ factoryInformers w.
Proof.
  intros w nodes.
  split; [vm_compute; reflexivity|]. split; [reflexivity|].
  split; [vm_compute; reflexivity|].
  assert (Hf : factoryInformers w = [nodes]) by (vm_compute; reflexivity).
  split; [exact Hf|]. rewrite Hf. intros Hin%list_elem_of_singleton. discriminate Hin.
Qed.

(** C6 on the code: after a config-map registration the manager's
    config-map informer is the filtered one and its run loop is the only
    goroutine; [GetConfigMapLister] returns a lister on the config-map
    informer of the shared factory, another informer, which it makes the
    factory instantiate and which no one has started. *)
Theorem config_map_lister_reads_the_factory_informer :
  let w := world_after cg_accepting register_config_map in
  let filtered := FilteredConfigMapInformer 3 7 "vmware-system-csi"
                    resyncPeriodConfigMapInformer [] None in
  let shared := FactoryInformer sample_factory ConfigMaps in
  run cg_accepting register_config_map init_world = Done tt w ∧
  configMapInformer (manager_at w sample_manager) = Some filtered ∧
  filter (λ e, is_go e = true) (trace w) = [GoInformerRun filtered (ChanAt 4)] ∧
  factoryInformers w = [] ∧
  GetConfigMapLister sample_manager w =
    Done (ListerOn shared) (set_factoryInformers [shared] w) ∧
  ListerOn shared ≠ ListerOn filtered.
Proof.
  intros w filtered shared.
  split; [vm_compute; reflexivity|]. split; [reflexivity|].
  split; [vm_compute; reflexivity|]. split; [reflexivity|].
  split; [vm_compute; reflexivity|]. discriminate.
Qed.

(** C7 as the specification states it fails: the namespace listener sets
    a synced predicate on the manager. *)
Lemma namespace_listener_sets_a_synced_predicate :
  let w0 := world_after cg_accepting create_manager in
  ¬ (∀ w1, AddNamespaceListener cg_accepting sample_manager 1 2 3 w0 = Done tt w1 →
           synced_fields (manager_at w1 sample_manager)
           = synced_fields (manager_at w0 sample_manager)).
Proof.
  intros w0 H.
  specialize (H (world_after cg_accepting register_namespace)).
  assert (Heq : synced_fields
                  (manager_at (world_after cg_accepting register_namespace) sample_manager)
                = synced_fields (manager_at w0 sample_manager))
    by (apply H; vm_compute; reflexivity).
  vm_compute in Heq. discriminate Heq.
Qed.

(** The amended C7 on a new manager: the node listener leaves the five
    predicates nil, the namespace listener sets the fifth. *)
Lemma synced_predicates_by_listener_witness :
  let w0 := world_after cg_accepting create_manager in
  heap w0 !! sample_manager = Some (manager_at w0 sample_manager) ∧
  (∃ w' m', AddNodeListener cg_accepting sample_manager 1 2 3 w0 = Done tt w' ∧
     heap w' !! sample_manager = Some m' ∧
     synced_fields m' = [None; None; None; None; None]) ∧
  (∃ w' m' i, AddNamespaceListener cg_accepting sample_manager 1 2 3 w0 = Done tt w' ∧
     heap w' !! sample_manager = Some m' ∧ namespaceInformer m' = Some i ∧
     synced_fields m' = [None; None; None; None; Some (HasSynced i)]).
Proof.
  intros w0.
  assert (Hm : heap w0 !! sample_manager = Some (manager_at w0 sample_manager))
    by (vm_compute; reflexivity).
  destruct (synced_predicates_by_listener cg_accepting w0 sample_manager _ 7
              "vmware-system-csi" 1 2 3 Hm) as (Hnone & Hns & _).
  split; [exact Hm|]. split; [|exact Hns].
  apply (Hnone (CallAddNodeListener sample_manager 1 2 3)).
  apply elem_of_cons. left. reflexivity.
Defined.


(** C9 as the specification states it fails: the node informer refuses
    the handler and the call writes no log line. *)
Lemma refused_handler_is_not_logged :
  let w0 := world_after cg_refusing create_manager in
  ¬ (∀ w1, AddNodeListener cg_refusing sample_manager 1 2 3 w0 = Done tt w1 →
           ∃ msg, LogInfo msg ∈ events_since w0 w1).
Proof.
  intros w0 H.
  destruct (H (world_after cg_refusing
                 (create_manager ++ [CallAddNodeListener sample_manager 1 2 3])))
    as [msg Hin]; [vm_compute; reflexivity|].
  vm_compute in Hin.
  apply list_elem_of_singleton in Hin. discriminate Hin.
Qed.

(** The amended C9 where every handler is refused: the node registration
    returns, the refusal is in the history and the log is as it was. *)
Lemma registration_returns_silently_witness :
  let w0 := world_after cg_refusing create_manager in
  heap w0 !! sample_manager = Some (manager_at w0 sample_manager) ∧
  registration sample_manager (CallAddNodeListener sample_manager 1 2 3) = true ∧
  ∃ w' i h evs,
    AddNodeListener cg_refusing sample_manager 1 2 3 w0 = Done tt w' ∧
    trace w' = trace w0 ++
      CalledAddEventHandler i h (Some "handler was not added to shared informer") :: evs ∧
    logs (trace w') = logs (trace w0).
Proof.
  intros w0.
  assert (Hm : heap w0 !! sample_manager = Some (manager_at w0 sample_manager))
    by (vm_compute; reflexivity).
  split; [exact Hm|]. split; [reflexivity|].
  exact (registration_returns_silently cg_refusing w0 sample_manager _
           (CallAddNodeListener sample_manager 1 2 3) Hm eq_refl).
Defined.

(** C10 where every handler is refused: the config-map registration on a
    new manager sets [configMapSynced] and launches nothing. *)
Lemma failed_registration_witness :
  let w0 := world_after cg_refusing create_manager in
  let i := FilteredConfigMapInformer 3 7 "vmware-system-csi"
             resyncPeriodConfigMapInformer [] None in
  heap w0 !! sample_manager = Some (manager_at w0 sample_manager) ∧
  handlerError cg_refusing i (handlerFuncs 1 2 3) (trace w0)
    = Some "handler was not added to shared informer" ∧
  ∃ w' m',
    AddConfigMapListener cg_refusing sample_manager 7 "vmware-system-csi" 1 2 3 w0
      = Done tt w' ∧
    heap w' !! sample_manager = Some m' ∧ configMapInformer m' = Some i ∧
    configMapSynced m' = Some (HasSynced i) ∧
    trace w' = trace w0 ++
      [CalledAddEventHandler i (handlerFuncs 1 2 3)
         (Some "handler was not added to shared informer")].
Proof.
  intros w0 i.
  assert (Hm : heap w0 !! sample_manager = Some (manager_at w0 sample_manager))
    by (vm_compute; reflexivity).
  split; [exact Hm|]. split; [reflexivity|].
  exact (proj1 (failed_registration cg_refusing w0 sample_manager _ 7
                  "vmware-system-csi" 1 2 3 _ Hm eq_refl)).
Defined.

(* ===================================================================== *)
(** ** The further properties on sample runs *)
(* ===================================================================== *)

(** With both managers created, a persistent-volume registration on the
    in-cluster manager leaves the supervisor manager as it was. *)
Lemma calls_leave_other_managers_alone_witness :
  let w := world_after cg_accepting create_both_managers in
  let c := CallAddPVListener sample_manager 1 2 3 in
  let w' := world_after cg_accepting (create_both_managers ++ [c]) in
  reachable cg_accepting w ∧
  exec cg_accepting c w = Done tt w' ∧
  heap w' !! supervisor_manager = heap w !! supervisor_manager.
Proof.
  intros w c w'.
  assert (Hr : reachable cg_accepting w)
    by (apply reachable_world_after with (w := w); vm_compute; reflexivity).
  assert (He : exec cg_accepting c w = Done tt w') by (vm_compute; reflexivity).
  split; [exact Hr|]. split; [exact He|].
  destruct (calls_leave_other_managers_alone cg_accepting w w' c Hr He) as [Hothers _].
  apply Hothers. discriminate.
Defined.

(** After a persistent-volume registration, a second one, a [Listen], the
    creation of the other manager and a pod registration leave the manager
    with what it had. *)
Lemma managers_only_grow_witness :
  let w := world_after cg_accepting register_pv_only in
  let w' := world_after cg_accepting (register_pv_only ++ later_calls) in
  let m := manager_at w sample_manager in
  reachable cg_accepting w ∧
  reachable_from cg_accepting w w' ∧
  heap w !! sample_manager = Some m ∧
  ∃ m', heap w' !! sample_manager = Some m' ∧
    client m' = client m ∧ stopCh m' = stopCh m ∧
    informerFactory m' = informerFactory m ∧
    Forall2 keeps (slots m) (slots m') ∧
    Forall2 keeps (synced_fields m) (synced_fields m').
Proof.
  intros w w' m.
  assert (Hr : reachable cg_accepting w)
    by (apply reachable_world_after with (w := w); vm_compute; reflexivity).
  assert (Hrf : reachable_from cg_accepting w w')
    by (exists later_calls; vm_compute; reflexivity).
  assert (Hm : heap w !! sample_manager = Some m) by (vm_compute; reflexivity).
  split; [exact Hr|]. split; [exact Hrf|]. split; [exact Hm|].
  exact (managers_only_grow cg_accepting w w' sample_manager m Hr Hrf Hm).
Defined.


(** After a persistent-volume registration the persistent-volume lister
    is on the informer in the manager's persistent-volume slot. *)
Lemma listers_read_the_listeners_informer_witness :
  let w := world_after cg_accepting register_pv_only in
  let m := manager_at w sample_manager in
  let i := FactoryInformer sample_factory PersistentVolumes in
  reachable cg_accepting w ∧
  heap w !! sample_manager = Some m ∧
  pvInformer m = Some i ∧
  ∃ w', GetPVLister sample_manager w = Done (ListerOn i) w'.
Proof.
  intros w m i.
  assert (Hr : reachable cg_accepting w)
    by (apply reachable_world_after with (w := w); vm_compute; reflexivity).
  assert (Hm : heap w !! sample_manager = Some m) by (vm_compute; reflexivity).
  assert (Hi : pvInformer m = Some i) by (vm_compute; reflexivity).
  split; [exact Hr|]. split; [exact Hm|]. split; [exact Hi|].
  destruct (listers_read_the_listeners_informer cg_accepting w sample_manager m Hr Hm)
    as ((w' & _ & _ & _ & Hslot) & _).
  exists w'. exact (Hslot i Hi).
Defined.

(** Two config-map registrations on a new manager, the second for another
    client and namespace: both handlers go to one informer. *)
Lemma registering_twice_is_cumulative_witness :
  let w := world_after cg_accepting create_manager in
  let c1 := CallAddConfigMapListener sample_manager 7 "vmware-system-csi" 1 2 3 in
  let c2 := CallAddConfigMapListener sample_manager 9 "kube-system" 4 5 6 in
  heap w !! sample_manager = Some (manager_at w sample_manager) ∧
  registration sample_manager c1 = true ∧
  same_listener c1 c2 = true ∧
  ∃ w1 w2 i,
    exec cg_accepting c1 w = Done tt w1 ∧
    exec cg_accepting c2 w1 = Done tt w2 ∧
    handler_calls (events_since w w2) = [(i, handlerFuncs 1 2 3); (i, handlerFuncs 4 5 6)].
Proof.
  intros w c1 c2.
  assert (Hm : heap w !! sample_manager = Some (manager_at w sample_manager))
    by (vm_compute; reflexivity).
  split; [exact Hm|]. split; [reflexivity|]. split; [reflexivity|].
  exact (registering_twice_is_cumulative cg_accepting w sample_manager _ c1 c2
           (handlerFuncs 1 2 3) (handlerFuncs 4 5 6) Hm eq_refl eq_refl eq_refl eq_refl).
Defined.

(** After two accepted config-map registrations the history has two run
    loops, and what the theorem says of them holds. *)
Lemma one_run_loop_per_accepted_registration_witness :
  let w := world_after cg_accepting register_config_map_twice in
  let filtered := FilteredConfigMapInformer 3 7 "vmware-system-csi"
                    resyncPeriodConfigMapInformer [] None in
  reachable cg_accepting w ∧
  run_loops (trace w) = [(filtered, ChanAt 4); (filtered, ChanAt 5)] ∧
  (run_loops (trace w)).*1 = accepted_on_filtered (trace w) ∧
  NoDup (run_loops (trace w)).*2 ∧
  (∀ ch, ch ∈ (run_loops (trace w)).*2 → ∃ a, ch = ChanAt a ∧ (a < nextAddr w)%nat).
Proof.
  intros w filtered.
  assert (Hr : reachable cg_accepting w)
    by (apply reachable_world_after with (w := w); vm_compute; reflexivity).
  split; [exact Hr|]. split; [vm_compute; reflexivity|].
  exact (one_run_loop_per_accepted_registration cg_accepting w Hr).
Defined.

(** With both managers created the log holds the two creation notices. *)
Lemma creation_is_logged_once_witness :
  let w := world_after cg_accepting (create_both_managers ++ create_both_managers) in
  reachable cg_accepting w ∧
  logs (trace w) = [creation_notice true; creation_notice false] ∧
  NoDup (logs (trace w)) ∧
  (∀ msg, msg ∈ logs (trace w) ↔
          ∃ b, msg = creation_notice b ∧ is_Some (instance_of b w)).
Proof.
  intros w.
  assert (Hr : reachable cg_accepting w)
    by (apply reachable_world_after with (w := w); vm_compute; reflexivity).
  split; [exact Hr|]. split; [vm_compute; reflexivity|].
  exact (creation_is_logged_once cg_accepting w Hr).
Defined.

(** The in-cluster and the supervisor manager have different stop
    channels and different factories. *)
Lemma managers_share_nothing_witness :
  let w := world_after cg_accepting create_both_managers in
  let mp := manager_at w sample_manager in
  let mq := manager_at w supervisor_manager in
  reachable cg_accepting w ∧
  heap w !! sample_manager = Some mp ∧
  heap w !! supervisor_manager = Some mq ∧
  factoryClient (informerFactory mp) = client mp ∧
  stopCh mp ≠ stopCh mq ∧ informerFactory mp ≠ informerFactory mq.
Proof.
  intros w mp mq.
  assert (Hr : reachable cg_accepting w)
    by (apply reachable_world_after with (w := w); vm_compute; reflexivity).
  assert (Hp : heap w !! sample_manager = Some mp) by (vm_compute; reflexivity).
  assert (Hq : heap w !! supervisor_manager = Some mq) by (vm_compute; reflexivity).
  split; [exact Hr|]. split; [exact Hp|]. split; [exact Hq|].
  destruct (managers_share_nothing cg_accepting w sample_manager supervisor_manager
              mp mq Hr Hp Hq) as [Hc Hne].
  split; [exact Hc|]. apply Hne. discriminate.
Defined.
